(** * Shapescape NBT Replacer: a shallow embedding of nbt_replacer.js

    The development follows src/shapescape_nbt_replacer/nbt_replacer.js:
    - the NBT tag tree as the code inspects it (Compound, List, String and
      every other tag);
    - [replaceStringsDeep], the recursive matcher/replacer;
    - [logAllStringTags] and the decode/re-parse logic of [processFile];
    - the validation loop of [main];
    - the [AdaptiveConcurrencyController] bookkeeping ([recordCompletion],
      [adjustConcurrency]) over exact rationals, and its task queue ([run],
      [processQueue], [waitAll]) as a step relation. *)

From Stdlib Require Import List String Ascii Arith Lia Bool ZArith QArith Qround Qminmax Lqa.
Import ListNotations.
Open Scope string_scope.
Open Scope list_scope.
Open Scope nat_scope.
Set Warnings "-register-all".

(* ------------------------------------------------------------------ *)
(** ** NBT tags *)

(** The tag tree as seen through [getId()]: an [NbtCompound] is a Map from
    keys to tags (iterated in insertion order by [tag.keys()]), an
    [NbtList] an index-addressed array, an [NbtString] a string value;
    every other tag kind (numbers, arrays, ...) is [TOther]. *)
Inductive tag : Type :=
| TString : string -> tag
| TCompound : list (string * tag) -> tag
| TList : list tag -> tag
| TOther : tag.

(** [[...pathParts, k].join(" > ")] *)
Fixpoint join (sep : string) (parts : list string) : string :=
  match parts with
  | [] => ""
  | [p] => p
  | p :: rest => p ++ sep ++ join sep rest
  end.

(** Decimal rendering of a list index (JavaScript template literal). *)
Fixpoint digits_of (fuel n : nat) (acc : string) : string :=
  match fuel with
  | 0 => acc
  | S fuel' =>
      let d := n mod 10 in
      let acc' := String (ascii_of_nat (48 + d)) acc in
      if n <? 10 then acc' else digits_of fuel' (n / 10) acc'
  end.

Definition string_of_nat (n : nat) : string := digits_of (S n) n "".

(** The path segment of a list element: [`[${i}]`]. *)
Definition idx_seg (i : nat) : string := "[" ++ string_of_nat i ++ "]".

(** JavaScript truthiness of the [property] argument ([rule.property ?? null]):
    [null] and the empty string are falsy. *)
Definition truthy (p : option string) : bool :=
  match p with
  | None => false
  | Some s => negb (String.eqb s "")
  end.

(** [property === k], with [property] a string or [null]. *)
Definition same_key (p : option string) (k : string) : bool :=
  match p with
  | None => false
  | Some s => String.eqb s k
  end.

(** A compiled regular expression, seen through [oldVal.replace(regex, to)]
    while [regex.lastIndex] is [L]: [re L oldVal to] is the string the call
    returns and the [lastIndex] it leaves behind. The regex object is shared
    by every call of a rule, so [lastIndex] is state: [replace] reads and
    writes it for a sticky regex without [g] (it tries a match at
    [lastIndex] only, then sets [lastIndex] to the end of the match, or to 0
    when there is none); with [g] it starts from 0 and leaves 0; with
    neither flag it ignores [lastIndex] and leaves it as it is. *)
Definition regex_t : Type := nat -> string -> string -> string * nat.

(** A regex whose substitutions do not depend on [lastIndex]: every regex
    but a sticky one without [g]. *)
Definition stateless (re : regex_t) : Prop :=
  forall L L' s tmpl, fst (re L s tmpl) = fst (re L' s tmpl).

(** [value.replace(/P/g, T)] for a pattern [P] made of ordinary characters
    only and a template [T] without [$]: every non-overlapping occurrence of
    [P], scanning left to right, is replaced by [T]. *)
Fixpoint replace_literal_all (fuel : nat) (pat tmpl s : string) : string :=
  match fuel with
  | 0 => s
  | S fuel' =>
      match s with
      | EmptyString => EmptyString
      | String c rest =>
          if String.prefix pat s
          then tmpl ++ replace_literal_all fuel' pat tmpl
                          (substring (String.length pat) (String.length s - String.length pat) s)
          else String c (replace_literal_all fuel' pat tmpl rest)
      end
  end.

Definition literal_global_regex (pat : string) : regex_t :=
  fun _ s tmpl => (replace_literal_all (String.length s) pat tmpl s, 0).

(** [value.replace(/P/y, T)] for the same kind of [P] and [T], from
    [lastIndex = L]: a match is tried at [L] only ([L] beyond the end
    fails); on success the occurrence is replaced and [lastIndex] becomes
    its end, on failure the value stays and [lastIndex] becomes 0. *)
Definition literal_sticky_regex (pat : string) : regex_t :=
  fun L s tmpl =>
    if (L <=? String.length s) && String.prefix pat (substring L (String.length s - L) s)
    then ((substring 0 L s ++ tmpl
             ++ substring (L + String.length pat) (String.length s - (L + String.length pat)) s)%string,
          L + String.length pat)
    else (s, 0).

Example literal_global_regex_ex :
  literal_global_regex "ab" 3 "xabyabab" "-" = ("x-y--", 0).
Proof. reflexivity. Qed.

Example literal_sticky_regex_ex :
  literal_sticky_regex "a" 1 "bab" "c" = ("bcb", 2)
  /\ literal_sticky_regex "a" 0 "bab" "c" = ("bab", 0).
Proof. split; reflexivity. Qed.

(** A change notification [onReplace(tagPath, oldVal, newVal)]. *)
Record event : Type := Event { ev_path : string; ev_old : string; ev_new : string }.

Section Engine.

(** The arguments of [replaceStringsDeep] that stay fixed along the
    recursion. [onReplace] is either a callback or [null]; the model records
    the calls the callback receives. The regex's [lastIndex] is threaded
    through the traversal. *)
Variable property : option string.
Variable from to : string.
Variable useRegex : bool.
Variable regex : option regex_t.
Variable onReplace : bool.

(** The replacement decision for a string child [oldVal] that passed the
    property test, the regex being at [lastIndex]: [Some newVal] when the
    branch taken replaces it, and the regex's [lastIndex] afterwards (the
    [oldVal === from] branch does not touch the regex). *)
Definition decide_replace (lastIndex : nat) (oldVal : string) : option string * nat :=
  match useRegex, regex with
  | true, Some re =>
      let '(newVal, lastIndex') := re lastIndex oldVal to in
      (if String.eqb newVal oldVal then None else Some newVal, lastIndex')
  | _, _ => (if String.eqb oldVal from then Some to else None, lastIndex)
  end.

(** The event list produced for one replacement. *)
Definition emit (tagPath oldVal newVal : string) : list event :=
  if onReplace then [Event tagPath oldVal newVal] else [].

(** The step of the Compound loop for one key [k] with child [child]: the
    property test, the replacement with its [continue], or the recursive
    call [replaceStringsDeep(child, ..., [...pathParts, k], ...)]. Results
    are the new child, the changes, the events and [lastIndex]. *)
Definition compound_child (rec : tag -> list string -> nat -> tag * nat * list event * nat)
  (pathParts : list string) (k : string) (child : tag) (lastIndex : nat)
  : tag * nat * list event * nat :=
  match child with
  | TString oldVal =>
      if negb (truthy property) || same_key property k
      then let '(d, li) := decide_replace lastIndex oldVal in
           match d with
           | Some newVal =>
               (TString newVal, 1, emit (join " > " (pathParts ++ [k])) oldVal newVal, li)
           | None => rec child (pathParts ++ [k]) li
           end
      else rec child (pathParts ++ [k]) lastIndex
  | _ => rec child (pathParts ++ [k]) lastIndex
  end.

(** The step of the List loop for index [i]. *)
Definition list_child (rec : tag -> list string -> nat -> tag * nat * list event * nat)
  (pathParts : list string) (i : nat) (child : tag) (lastIndex : nat)
  : tag * nat * list event * nat :=
  match child with
  | TString oldVal =>
      if negb (truthy property)
      then let '(d, li) := decide_replace lastIndex oldVal in
           match d with
           | Some newVal =>
               (TString newVal, 1, emit (join " > " (pathParts ++ [idx_seg i])) oldVal newVal, li)
           | None => rec child (pathParts ++ [idx_seg i]) li
           end
      else rec child (pathParts ++ [idx_seg i]) lastIndex
  | _ => rec child (pathParts ++ [idx_seg i]) lastIndex
  end.

(** [for (const k of tag.keys()) { ... }]: the changes are summed, the
    callback calls concatenated in key order, and [lastIndex] passed from
    one key to the next. *)
Fixpoint compound_loop (rec : tag -> list string -> nat -> tag * nat * list event * nat)
  (pathParts : list string) (es : list (string * tag)) (lastIndex : nat)
  : list (string * tag) * nat * list event * nat :=
  match es with
  | [] => ([], 0, [], lastIndex)
  | (k, child) :: rest =>
      let '(child', n1, ev1, li1) := compound_child rec pathParts k child lastIndex in
      let '(rest', n2, ev2, li2) := compound_loop rec pathParts rest li1 in
      ((k, child') :: rest', n1 + n2, ev1 ++ ev2, li2)
  end.

(** [for (let i = 0; i < len; i++) { ... }], from index [i] on. *)
Fixpoint list_loop (rec : tag -> list string -> nat -> tag * nat * list event * nat)
  (pathParts : list string) (i : nat) (xs : list tag) (lastIndex : nat)
  : list tag * nat * list event * nat :=
  match xs with
  | [] => ([], 0, [], lastIndex)
  | child :: rest =>
      let '(child', n1, ev1, li1) := list_child rec pathParts i child lastIndex in
      let '(rest', n2, ev2, li2) := list_loop rec pathParts (S i) rest li1 in
      (child' :: rest', n1 + n2, ev1 ++ ev2, li2)
  end.

(** [replaceStringsDeep tag property from to currentKey useRegex regex
    pathParts onReplace], the regex being at [lastIndex]: returns the
    mutated tag, the number of changes, the callback calls, in order, and
    the regex's [lastIndex] at the end. [currentKey] is never read by the
    body and is omitted. A String tag reached directly returns 0. *)
Fixpoint replaceStringsDeep (t : tag) (pathParts : list string) (lastIndex : nat)
  : tag * nat * list event * nat :=
  match t with
  | TString _ => (t, 0, [], lastIndex)
  | TCompound es =>
      let '(es', n, ev, li) := compound_loop replaceStringsDeep pathParts es lastIndex in
      (TCompound es', n, ev, li)
  | TList xs =>
      let '(xs', n, ev, li) := list_loop replaceStringsDeep pathParts 0 xs lastIndex in
      (TList xs', n, ev, li)
  | TOther => (t, 0, [], lastIndex)
  end.

End Engine.

(** The tree [replaceStringsDeep] leaves behind (the tag mutated in place),
    the regex being at [lastIndex] when the pass starts. *)
Definition out (property : option string) (from to : string) (useRegex : bool)
  (regex : option regex_t) (lastIndex : nat) (t : tag) : tag :=
  fst (fst (fst (replaceStringsDeep property from to useRegex regex false t [] lastIndex))).

(** The number of changes [replaceStringsDeep] returns. *)
Definition changes (property : option string) (from to : string) (useRegex : bool)
  (regex : option regex_t) (lastIndex : nat) (t : tag) : nat :=
  snd (fst (fst (replaceStringsDeep property from to useRegex regex false t [] lastIndex))).

(** ** Locating a node: a Map key, or an array index *)

Inductive seg : Type :=
| SKey : string -> seg
| SIdx : nat -> seg.

(** [tag.get(k)] on a Map: the entry stored under [k]. *)
Fixpoint find_key (k : string) (es : list (string * tag)) : option tag :=
  match es with
  | [] => None
  | (k', c) :: rest => if String.eqb k' k then Some c else find_key k rest
  end.

Fixpoint lookup (t : tag) (p : list seg) : option tag :=
  match p with
  | [] => Some t
  | s :: p' =>
      match s, t with
      | SKey k, TCompound es =>
          match find_key k es with Some c => lookup c p' | None => None end
      | SIdx i, TList xs =>
          match nth_error xs i with Some c => lookup c p' | None => None end
      | _, _ => None
      end
  end.

(** The property test of [replaceStringsDeep] for a string child reached
    through the segment [s]: [!property || property === k] under a
    Compound, [!property] in a List. *)
Definition eligible_at (property : option string) (s : seg) : bool :=
  match s with
  | SKey k => negb (truthy property) || same_key property k
  | SIdx _ => negb (truthy property)
  end.

(** ** Reference traversal, following the spec's description (section 4.3)

    Every String tag that is a direct child of a Compound (under its key) or
    a direct element of a List, in depth-first pre-order (Map keys in stored
    order, List elements in index order), with its path segments. Other
    children are descended into; the root itself is not a candidate. *)
Fixpoint children_loop (rec : tag -> list string -> list (list string * seg * string))
  (parts : list string) (es : list (string * tag)) : list (list string * seg * string) :=
  match es with
  | [] => []
  | (k, TString v) :: rest => (parts ++ [k], SKey k, v) :: children_loop rec parts rest
  | (k, c) :: rest => rec c (parts ++ [k]) ++ children_loop rec parts rest
  end.

Fixpoint elements_loop (rec : tag -> list string -> list (list string * seg * string))
  (parts : list string) (i : nat) (xs : list tag) : list (list string * seg * string) :=
  match xs with
  | [] => []
  | TString v :: rest => (parts ++ [idx_seg i], SIdx i, v) :: elements_loop rec parts (S i) rest
  | c :: rest => rec c (parts ++ [idx_seg i]) ++ elements_loop rec parts (S i) rest
  end.

Fixpoint string_children (t : tag) (parts : list string)
  : list (list string * seg * string) :=
  match t with
  | TCompound es => children_loop string_children parts es
  | TList xs => elements_loop string_children parts 0 xs
  | _ => []
  end.

Section Reference.
Variable property : option string.
Variables from to : string.
Variable useRegex : bool.
Variable regex : option regex_t.

(** The candidates taken in that order: an eligible one is submitted to the
    replacement decision with the regex at its current [lastIndex], which
    the decision passes on; an ineligible one is passed over. The result:
    the candidates with their values afterwards, one change event per
    replaced candidate (its full path joined with [" > "], the old and the
    new value), and the final [lastIndex]. *)
Fixpoint scan (lastIndex : nat) (cs : list (list string * seg * string))
  : list (list string * seg * string) * list event * nat :=
  match cs with
  | [] => ([], [], lastIndex)
  | (segs, s, v) :: rest =>
      if eligible_at property s then
        let '(d, li) := decide_replace from to useRegex regex lastIndex v in
        let '(rest', ev, li') := scan li rest in
        match d with
        | Some nv => ((segs, s, nv) :: rest', Event (join " > " segs) v nv :: ev, li')
        | None => ((segs, s, v) :: rest', ev, li')
        end
      else
        let '(rest', ev, li') := scan lastIndex rest in
        ((segs, s, v) :: rest', ev, li')
  end.

(** The change events of the candidates of [t], in depth-first order. *)
Definition spec_events (lastIndex : nat) (t : tag) (parts : list string) : list event :=
  snd (fst (scan lastIndex (string_children t parts))).

(** The value a string child reached through [s] holds after its
    replacement decision, taken with the regex at [lastIndex]. *)
Definition leaf_out (lastIndex : nat) (s : seg) (v : string) : string :=
  if eligible_at property s then
    match fst (decide_replace from to useRegex regex lastIndex v) with
    | Some nv => nv
    | None => v
    end
  else v.

End Reference.

(** A structural induction principle for [tag] that sees through the
    nested lists. *)
Section TagInd.
Variable P : tag -> Prop.
Hypothesis HS : forall s, P (TString s).
Hypothesis HC : forall es, Forall (fun e => P (snd e)) es -> P (TCompound es).
Hypothesis HL : forall xs, Forall P xs -> P (TList xs).
Hypothesis HO : P TOther.

Fixpoint tag_ind' (t : tag) : P t :=
  match t with
  | TString s => HS s
  | TCompound es =>
      HC es ((fix f (es : list (string * tag)) : Forall (fun e => P (snd e)) es :=
                match es with
                | [] => Forall_nil _
                | e :: r => Forall_cons _ (tag_ind' (snd e)) (f r)
                end) es)
  | TList xs =>
      HL xs ((fix f (xs : list tag) : Forall P xs :=
                match xs with
                | [] => Forall_nil _
                | x :: r => Forall_cons _ (tag_ind' x) (f r)
                end) xs)
  | TOther => HO
  end.
End TagInd.

Example engine_facing :
  replaceStringsDeep (Some "facing") "west" "north" false None true
    (TCompound [("facing", TString "west"); ("direction", TString "west");
                ("list", TList [TString "west"; TString "north"])]) [] 0
  = (TCompound [("facing", TString "north"); ("direction", TString "west");
                ("list", TList [TString "west"; TString "north"])], 1,
     [Event "facing" "west" "north"], 0).
Proof. reflexivity. Qed.

Example engine_paths :
  snd (fst (replaceStringsDeep None "w" "n" false None true
    (TCompound [("a", TList [TOther; TCompound [("b", TString "w")]; TString "w"])]) [] 0))
  = [Event "a > [1] > b" "w" "n"; Event "a > [2]" "w" "n"].
Proof. reflexivity. Qed.

Example spec_events_paths :
  spec_events None "w" "n" false None 0
    (TCompound [("a", TList [TOther; TCompound [("b", TString "w")]; TString "w"])]) []
  = [Event "a > [1] > b" "w" "n"; Event "a > [2]" "w" "n"].
Proof. reflexivity. Qed.

(** A sticky regex carries [lastIndex] from one String to the next: with
    [/a/y] and the template ["b"], the match in [k1] leaves [lastIndex = 1],
    so the match for [k2] is tried at index 1 and fails. *)
Example engine_sticky :
  replaceStringsDeep None "a" "b" true (Some (literal_sticky_regex "a")) false
    (TCompound [("k1", TString "a"); ("k2", TString "ab")]) [] 0
  = (TCompound [("k1", TString "b"); ("k2", TString "ab")], 1, [], 0).
Proof. reflexivity. Qed.

(* ------------------------------------------------------------------ *)
(** ** AdaptiveConcurrencyController

    The fields that the feedback loop reads and writes. [activeTasks] and
    [queue] only decide when tasks start and never feed back into these
    fields. JavaScript numbers are modelled as exact rationals ([Q]); the
    durations [Date.now() - startTime] as integers ([Z]). *)
Record controller : Type := Controller {
  maxConcurrency : Q;
  currentConcurrency : Q;
  recentTimes : list Z;
  completedSinceAdjust : nat
}.

Definition maxTimeHistory : nat := 10.
Definition adjustmentInterval : nat := 5.

(** [constructor(initialConcurrency)] *)
Definition new_controller (initialConcurrency : Q) : controller :=
  {| maxConcurrency := Qmax 1 initialConcurrency;
     currentConcurrency := Qmax 1 (inject_Z (Qfloor (initialConcurrency / 2)));
     recentTimes := [];
     completedSinceAdjust := 0 |}.

Definition Qltb (x y : Q) : bool := negb (Qle_bool y x).

(** [xs.reduce((a, b) => a + b, 0)] *)
Definition sum_times (xs : list Z) : Z := fold_left Z.add xs 0%Z.

(** [this.recentTimes.reduce(...) / this.recentTimes.length] *)
Definition avg_time (xs : list Z) : Q :=
  inject_Z (sum_times xs) / inject_Z (Z.of_nat (List.length xs)).

(** [this.recentTimes.slice(-3).reduce(...) / 3] *)
Definition recent_avg (xs : list Z) : Q :=
  inject_Z (sum_times (skipn (List.length xs - 3) xs)) / inject_Z 3.

Definition set_current (st : controller) (c : Q) : controller :=
  {| maxConcurrency := maxConcurrency st; currentConcurrency := c;
     recentTimes := recentTimes st; completedSinceAdjust := completedSinceAdjust st |}.

(** [adjustConcurrency()]; [0.8] and [1.2] as the rationals [4/5], [6/5]. *)
Definition adjustConcurrency (st : controller) : controller :=
  let xs := recentTimes st in
  if List.length xs <? 3 then st else
  let avgTime := avg_time xs in
  let recentAvg := recent_avg xs in
  if Qltb recentAvg (avgTime * (4 # 5)) && Qltb (currentConcurrency st) (maxConcurrency st)
  then set_current st (Qmin (maxConcurrency st) (currentConcurrency st + 1))
  else if Qltb (avgTime * (6 # 5)) recentAvg && Qltb 1 (currentConcurrency st)
  then set_current st (Qmax 1 (currentConcurrency st - 1))
  else st.

(** [this.recentTimes.push(duration)], then [shift()] beyond the history. *)
Definition push_time (xs : list Z) (duration : Z) : list Z :=
  let xs' := xs ++ [duration] in
  if maxTimeHistory <? List.length xs' then tl xs' else xs'.

(** [recordCompletion(duration)] *)
Definition recordCompletion (st : controller) (duration : Z) : controller :=
  let st1 := {| maxConcurrency := maxConcurrency st;
                currentConcurrency := currentConcurrency st;
                recentTimes := push_time (recentTimes st) duration;
                completedSinceAdjust := S (completedSinceAdjust st) |} in
  if adjustmentInterval <=? completedSinceAdjust st1
  then let st2 := adjustConcurrency st1 in
       {| maxConcurrency := maxConcurrency st2;
          currentConcurrency := currentConcurrency st2;
          recentTimes := recentTimes st2;
          completedSinceAdjust := 0 |}
  else st1.

(** The controller after a sequence of task completions. *)
Definition run_completions (st : controller) (ds : list Z) : controller :=
  fold_left recordCompletion ds st.

(* ------------------------------------------------------------------ *)
(** ** processFile: reading, format resolution, replacement, write-back *)

Definition bytes : Type := list Byte.byte.

(** The options object handed to [NbtFile.read]; [undefined] is [None]. *)
Record read_opts : Type := ReadOpts {
  bedrockHeader : option bool;
  compression : option string;
  littleEndian : option bool
}.

Definition opts_bedrock := ReadOpts (Some true) None None.
Definition opts_bedrock_zlib := ReadOpts (Some true) (Some "zlib") None.
Definition opts_bedrock_gzip := ReadOpts (Some true) (Some "gzip") None.
Definition opts_little := ReadOpts None None (Some true).
Definition opts_gzip := ReadOpts None (Some "gzip") None.
Definition opts_zlib := ReadOpts None (Some "zlib") None.
Definition opts_java := ReadOpts None None (Some false).

(** [String.prototype.toLowerCase] on ASCII letters. *)
Definition lower_ascii (c : ascii) : ascii :=
  let n := nat_of_ascii c in
  if (65 <=? n) && (n <=? 90) then ascii_of_nat (n + 32) else c.

Fixpoint to_lower (s : string) : string :=
  match s with
  | EmptyString => EmptyString
  | String c rest => String (lower_ascii c) (to_lower rest)
  end.

(** [s.endsWith(suffix)] *)
Definition ends_with (suffix s : string) : bool :=
  (String.length suffix <=? String.length s)
  && String.eqb (substring (String.length s - String.length suffix) (String.length suffix) s) suffix.

(** The [attempts] list built from the lower-cased file name. *)
Definition attempts (filePath : string) : list (option read_opts) :=
  let lower := to_lower filePath in
  (if ends_with ".mcstructure.gz" lower then [Some opts_bedrock_gzip] else [])
  ++ (if ends_with ".mcstructure" lower
      then [Some opts_bedrock; Some opts_bedrock_zlib; Some opts_bedrock_gzip] else [])
  ++ [None; Some opts_little; Some opts_gzip; Some opts_zlib].

(** [retryStrategies]: auto, bedrockHeader, littleEndian, javaLike. *)
Definition retryStrategies : list (option read_opts) :=
  [None; Some opts_bedrock; Some opts_little; Some opts_java].

(** [logAllStringTags(tag, pathParts, matchCtx)]: the number of String tags
    in the tree, the root included. [matchCtx] only decides the debug
    marker printed next to each tag and never the count. *)
Fixpoint logAllStringTags (t : tag) : nat :=
  match t with
  | TString _ => 1
  | TCompound es => fold_right (fun e acc => logAllStringTags (snd e) + acc) 0 es
  | TList xs => fold_right (fun x acc => logAllStringTags x + acc) 0 xs
  | TOther => 0
  end.

(** [pathParts[pathParts.length - 1]]; [undefined] for the empty path. *)
Fixpoint last_part (pathParts : list string) : option string :=
  match pathParts with
  | [] => None
  | [p] => Some p
  | _ :: rest => last_part rest
  end.

(** [propertyOk = !property || property === lastKey] in [logAllStringTags]. *)
Definition property_ok (property : option string) (pathParts : list string) : bool :=
  negb (truthy property)
  || match property, last_part pathParts with
     | Some p, Some k => String.eqb p k
     | _, _ => false
     end.

(** The [lastIndex] the regex of [matchCtx] has after
    [logAllStringTags(tag, pathParts, matchCtx)], from [lastIndex]
    ([hasRegex]: [matchCtx.regex] is a regex, not [null]): at each String
    tag that passes [propertyOk], [regex.test(val)] runs and
    [regex.lastIndex = 0] follows. *)
Fixpoint log_lastIndex (property : option string) (hasRegex : bool) (t : tag)
  (pathParts : list string) (lastIndex : nat) : nat :=
  match t with
  | TString _ => if hasRegex && property_ok property pathParts then 0 else lastIndex
  | TCompound es =>
      (fix go (es : list (string * tag)) (li : nat) : nat :=
         match es with
         | [] => li
         | (k, c) :: rest => go rest (log_lastIndex property hasRegex c (pathParts ++ [k]) li)
         end) es lastIndex
  | TList xs =>
      (fix go (i : nat) (xs : list tag) (li : nat) : nat :=
         match xs with
         | [] => li
         | c :: rest => go (S i) rest (log_lastIndex property hasRegex c (pathParts ++ [idx_seg i]) li)
         end) 0 xs lastIndex
  | TOther => lastIndex
  end.

(** The outcome of a [processFile] job: a rejection, or
    [{ filesChanged, stringsChanged }]. *)
Inductive job_result : Type :=
| JobFailed
| JobDone (filesChanged stringsChanged : nat).

(** What [await fs.writeFile(filePath, data)] does: it succeeds and the
    file holds [data]; or it rejects, leaving the file as it was ([None],
    e.g. a read-only file) or holding other bytes ([Some b], e.g. emptied
    by the open and partly written when the disk fills up). *)
Inductive write_outcome : Type :=
| WriteOk
| WriteFailed (left : option bytes).

(** [useRegex ? regex : null] is a regex, not [null]. *)
Definition match_regex (useRegex : bool) (regex : option regex_t) : bool :=
  useRegex && match regex with Some _ => true | None => false end.

Section ProcessFile.

(** The codec: [NbtFile.read(bytes, opts)] either throws ([None]) or yields
    a file with its root tag and whatever it records about the format;
    [nbtFile.write()] encodes it back with that format, or throws ([None]). *)
Variable nbt_format : Type.
Variable read : bytes -> option read_opts -> option (tag * nbt_format).
Variable write : tag -> nbt_format -> option bytes.

(** [for (const a of attempts) { try { nbtFile = NbtFile.read(u8, a.opts); break; } catch ... }] *)
Fixpoint first_read (buf : bytes) (os : list (option read_opts)) : option (tag * nbt_format) :=
  match os with
  | [] => None
  | o :: rest =>
      match read buf o with
      | Some f => Some f
      | None => first_read buf rest
      end
  end.

(** The re-parse loop: the first strategy whose file has [cnt > 0]. *)
Fixpoint retry_read (buf : bytes) (os : list (option read_opts)) : option (tag * nbt_format) :=
  match os with
  | [] => None
  | o :: rest =>
      match read buf o with
      | Some tmp => if 0 <? logAllStringTags (fst tmp) then Some tmp else retry_read buf rest
      | None => retry_read buf rest
      end
  end.

(** The file the replacement phase works on. *)
Definition resolve (filePath : string) (buf : bytes) : option (tag * nbt_format) :=
  match first_read buf (attempts filePath) with
  | None => None
  | Some nbtFile =>
      if logAllStringTags (fst nbtFile) =? 0 then
        match retry_read buf retryStrategies with
        | Some tmp => Some tmp
        | None => Some nbtFile
        end
      else Some nbtFile
  end.

(** The regex's [lastIndex] after the [logAllStringTags] calls of the
    re-parse loop, each with [{ property: propFilter, from, regex: useRegex
    ? regex : null }]. *)
Fixpoint retry_lastIndex (propFilter : option string) (hasRegex : bool) (buf : bytes)
  (os : list (option read_opts)) (lastIndex : nat) : nat :=
  match os with
  | [] => lastIndex
  | o :: rest =>
      match read buf o with
      | Some tmp =>
          let li := log_lastIndex propFilter hasRegex (fst tmp) [] lastIndex in
          if 0 <? logAllStringTags (fst tmp) then li
          else retry_lastIndex propFilter hasRegex buf rest li
      | None => retry_lastIndex propFilter hasRegex buf rest lastIndex
      end
  end.

(** The regex's [lastIndex] when the replacement phase starts: the call on
    the accepted file, then the re-parse loop when that call counted
    nothing. *)
Definition resolve_lastIndex (filePath : string) (buf : bytes) (propFilter : option string)
  (hasRegex : bool) (lastIndex : nat) : nat :=
  match first_read buf (attempts filePath) with
  | None => lastIndex
  | Some nbtFile =>
      let li := log_lastIndex propFilter hasRegex (fst nbtFile) [] lastIndex in
      if logAllStringTags (fst nbtFile) =? 0
      then retry_lastIndex propFilter hasRegex buf retryStrategies li
      else li
  end.

(** The file system, as file contents by path ([None]: unreadable). *)
Definition fs_t : Type := string -> option bytes.

Definition fs_write (fs : fs_t) (path : string) (b : bytes) : fs_t :=
  fun p => if String.eqb p path then Some b else fs p.

(** [processFile(filePath, rIndex, propFilter, from, to, useRegex, regex,
    notify)]. [lastIndex] is the regex's [lastIndex] when [fs.readFile]
    completes: from there to [fs.writeFile] the job runs without yielding,
    so no other job of the rule touches the shared regex in between. [wr]
    is what [fs.writeFile] does if it is called. The result: the job's
    outcome (a thrown error, rethrown by the [catch], is [JobFailed]), the
    file system afterwards and the regex's [lastIndex] (the console output
    is left out). *)
Definition processFile (fs : fs_t) (filePath : string) (propFilter : option string)
  (from to : string) (useRegex : bool) (regex : option regex_t) (notify : bool)
  (lastIndex : nat) (wr : write_outcome) : job_result * fs_t * nat :=
  match fs filePath with
  | None => (JobFailed, fs, lastIndex)
  | Some buf =>
      match resolve filePath buf with
      | None => (JobFailed, fs, lastIndex)
      | Some (root, fmt) =>
          let li := resolve_lastIndex filePath buf propFilter (match_regex useRegex regex) lastIndex in
          let '(root', changed, _, li') :=
            replaceStringsDeep propFilter from to useRegex regex notify root [] li in
          if 0 <? changed
          then match write root' fmt with
               | None => (JobFailed, fs, li')
               | Some out =>
                   match wr with
                   | WriteOk => (JobDone 1 changed, fs_write fs filePath out, li')
                   | WriteFailed None => (JobFailed, fs, li')
                   | WriteFailed (Some b) => (JobFailed, fs_write fs filePath b, li')
                   end
               end
          else (JobDone 0 0, fs, li')
      end
  end.

End ProcessFile.

(* ------------------------------------------------------------------ *)
(** ** main: the rule loop *)

(** One element of [cfg.rules] after [JSON.parse]; absent fields are [None].
    [r_regex] is [rule.regex === true]. *)
Record rule : Type := Rule {
  r_path : option string;
  r_property : option string;
  r_from : option string;
  r_to : option string;
  r_regex : bool;
  r_flags : option string;
  r_notify : option bool
}.

(** [rules[rIndex] ?? {}] *)
Definition empty_rule : rule := Rule None None None None false None None.

Definition rule_of (r0 : option rule) : rule :=
  match r0 with Some r => r | None => empty_rule end.

Definition default_str (o : option string) (d : string) : string :=
  match o with Some s => s | None => d end.

Definition is_undefined {A} (o : option A) : bool :=
  match o with None => true | Some _ => false end.

(** [!globPattern || rule.from === undefined || rule.to === undefined] *)
Definition missing_required (r : rule) : bool :=
  negb (truthy (r_path r)) || is_undefined (r_from r) || is_undefined (r_to r).

(** [from.replace(/\u0008/g, "\\b")]: each backspace character becomes a
    backslash followed by [b]. *)
Fixpoint norm_pattern (s : string) : string :=
  match s with
  | EmptyString => EmptyString
  | String c rest =>
      if Ascii.eqb c (ascii_of_nat 8) then String "\" (String "b" (norm_pattern rest))
      else String c (norm_pattern rest)
  end.

(** The outcome of a run: [process.exit(code)], or the final summary
    [Done. Files changed: ..., strings replaced: ...]. *)
Inductive outcome : Type :=
| Exit (code : nat)
| Done (filesChanged stringsChanged : nat).

Section Main.

(** [fg(globPattern, ...)]: the matched files, in order. *)
Variable glob : string -> list string.
(** Whether [new RegExp(pattern, flags)] succeeds, and the regex it builds. *)
Variable regexp_ok : string -> string -> bool.
Variable make_regexp : string -> string -> regex_t.
(** [cfg.notify] *)
Variable cfg_notify : option bool.
(** One [processFile] job for rule [rIndex] on a file; its result. The
    jobs of a rule share its regex object (and its [lastIndex]) and the
    file system, so a job's result may depend on the jobs that ran before
    it; [job] gives the results the run produced. The files of one rule are
    distinct, so any such results are given by some [job]. *)
Variable job : nat -> string -> option string -> string -> string -> bool
               -> option regex_t -> bool -> job_result.

(** [regex = new RegExp(normPattern, flags)] fails. *)
Definition regex_fails (r : rule) : bool :=
  r_regex r
  && negb (regexp_ok (norm_pattern (default_str (r_from r) ""))
                     (default_str (r_flags r) "g")).

Definition add_result (acc : nat * nat) (res : job_result) : nat * nat :=
  match res with
  | JobDone f n => (fst acc + f, snd acc + n)
  | JobFailed => acc
  end.

(** [for (let rIndex = 0; rIndex < rules.length; rIndex++) { ... }]: the
    jobs started, as [(rIndex, filePath)] in submission order, and the
    outcome. The totals are carried along. *)
Fixpoint run_rules (rIndex : nat) (rules : list (option rule)) (totals : nat * nat)
  : list (nat * string) * outcome :=
  match rules with
  | [] => ([], Done (fst totals) (snd totals))
  | r0 :: rest =>
      let r := rule_of r0 in
      let propFilter := r_property r in
      let from := default_str (r_from r) "" in
      let to := default_str (r_to r) "" in
      let useRegex := r_regex r in
      let notify := match r_notify r with
                    | Some b => b
                    | None => match cfg_notify with Some b => b | None => false end
                    end in
      if missing_required r then ([], Exit 1)
      else if regex_fails r then ([], Exit 1)
      else
        let regex := if useRegex
                     then Some (make_regexp (norm_pattern from) (default_str (r_flags r) "g"))
                     else None in
        let files := glob (default_str (r_path r) "") in
        match files with
        | [] => run_rules (S rIndex) rest totals
        | _ =>
            let results := map (fun f => job rIndex f propFilter from to useRegex regex notify) files in
            let totals' := fold_left add_result results totals in
            let '(started, o) := run_rules (S rIndex) rest totals' in
            (map (pair rIndex) files ++ started, o)
        end
  end.

End Main.

(** The jobs the rules [rules] start when none of them is rejected: the
    files each one matches, tagged with the rule index, rule after rule. *)
Fixpoint started_files (glob : string -> list string) (rIndex : nat) (rules : list (option rule))
  : list (nat * string) :=
  match rules with
  | [] => []
  | r0 :: rest =>
      map (pair rIndex) (glob (default_str (r_path (rule_of r0)) ""))
        ++ started_files glob (S rIndex) rest
  end.

(* ------------------------------------------------------------------ *)
(** ** The task queue of AdaptiveConcurrencyController

    [run(task)] pushes the task and calls [processQueue()]; [processQueue()]
    starts queued tasks, oldest first, while [activeTasks <
    currentConcurrency]; a task's completion first calls
    [recordCompletion(duration)] (in [then] or [catch]) and later, in
    [finally], decrements [activeTasks] and calls [processQueue()] again.
    Besides the fields of the code, the state keeps two ghost lists: the
    tasks handed to [run] and the tasks started, both in order. *)
Section Scheduler.
Variable task : Type.

Record sched : Type := Sched {
  s_ctl : controller;
  s_active : nat;
  s_queue : list task;
  s_started : list task;
  s_submitted : list task
}.

(** The [while] loop of [processQueue()] with the limit [cur]: the new
    [activeTasks], the remaining queue and the tasks started, in order. *)
Fixpoint process_queue (cur : Q) (active : nat) (q : list task) : nat * list task * list task :=
  match q with
  | [] => (active, [], [])
  | x :: rest =>
      if Qltb (inject_Z (Z.of_nat active)) cur
      then let '(a', q', s) := process_queue cur (S active) rest in (a', q', x :: s)
      else (active, q, [])
  end.

Definition processQueue (st : sched) : sched :=
  let '(a', q', s) := process_queue (currentConcurrency (s_ctl st)) (s_active st) (s_queue st) in
  Sched (s_ctl st) a' q' (s_started st ++ s) (s_submitted st).

(** The events the controller reacts to, in any interleaving. *)
Inductive sched_step : sched -> sched -> Prop :=
| step_run st x :
    sched_step st (processQueue (Sched (s_ctl st) (s_active st) (s_queue st ++ [x])
                                       (s_started st) (s_submitted st ++ [x])))
| step_record st d :
    0 < s_active st ->
    sched_step st (Sched (recordCompletion (s_ctl st) d) (s_active st) (s_queue st)
                         (s_started st) (s_submitted st))
| step_finally st :
    0 < s_active st ->
    sched_step st (processQueue (Sched (s_ctl st) (pred (s_active st)) (s_queue st)
                                       (s_started st) (s_submitted st))).

(** The states reachable from a fresh controller with ceiling [C]. *)
Inductive sched_reachable (C : Q) : sched -> Prop :=
| reach_init : sched_reachable C (Sched (new_controller C) 0 [] [] [])
| reach_step st st' : sched_reachable C st -> sched_step st st' -> sched_reachable C st'.

End Scheduler.

Arguments Sched {task}.
Arguments s_ctl {task}.
Arguments s_active {task}.
Arguments s_queue {task}.
Arguments s_started {task}.
Arguments s_submitted {task}.

(* ------------------------------------------------------------------ *)
(** ** Observations on trees and histories used in the statements *)

(** A tree with every String value erased: what stays when only values
    change. *)
Fixpoint shape (t : tag) : tag :=
  match t with
  | TString _ => TString ""
  | TCompound es => TCompound (map (fun e => (fst e, shape (snd e))) es)
  | TList xs => TList (map shape xs)
  | TOther => TOther
  end.

(** The values of the String children of a tree, in depth-first order. *)
Definition string_values (t : tag) : list string :=
  map (fun x => let '(_, _, v) := x in v) (string_children t []).

(** The number of positions at which two value lists differ. *)
Fixpoint count_diff (xs ys : list string) : nat :=
  match xs, ys with
  | x :: xs', y :: ys' => (if String.eqb x y then 0 else 1) + count_diff xs' ys'
  | _, _ => 0
  end.

(** The number of String children that pass the property test and whose
    value equals [from]. *)
Definition count_matches (property : option string) (from : string) (t : tag) : nat :=
  List.length (filter (fun x => let '(_, s, v) := x in eligible_at property s && String.eqb v from)
                      (string_children t [])).

(** The last [n] elements of a list. *)
Definition lastn {A} (n : nat) (xs : list A) : list A := skipn (List.length xs - n) xs.

(** Whether a string contains the backspace character U+0008. *)
Fixpoint has_backspace (s : string) : bool :=
  match s with
  | EmptyString => false
  | String c rest => Ascii.eqb c (ascii_of_nat 8) || has_backspace rest
  end.

(** The [filesChanged] and [stringsChanged] sums over job results; a
    rejected job adds nothing. *)
Definition files_of (res : job_result) : nat :=
  match res with JobDone f _ => f | JobFailed => 0 end.

Definition strings_of (res : job_result) : nat :=
  match res with JobDone _ n => n | JobFailed => 0 end.

Section MainResults.
Variable glob : string -> list string.
Variable make_regexp : string -> string -> regex_t.
Variable cfg_notify : option bool.
Variable job : nat -> string -> option string -> string -> string -> bool
               -> option regex_t -> bool -> job_result.

(** The results of the jobs of the rules [rules], numbered from [rIndex],
    when every rule is accepted: each rule's files in glob order, with the
    arguments [main] passes to [processFile]. *)
Fixpoint rule_results (rIndex : nat) (rules : list (option rule)) : list job_result :=
  match rules with
  | [] => []
  | r0 :: rest =>
      let r := rule_of r0 in
      let from := default_str (r_from r) "" in
      let notify := match r_notify r with
                    | Some b => b
                    | None => match cfg_notify with Some b => b | None => false end
                    end in
      let regex := if r_regex r
                   then Some (make_regexp (norm_pattern from) (default_str (r_flags r) "g"))
                   else None in
      map (fun f => job rIndex f (r_property r) from (default_str (r_to r) "") (r_regex r) regex notify)
          (glob (default_str (r_path r) ""))
      ++ rule_results (S rIndex) rest
  end.

End MainResults.

(* ================================================================== *)
(** * Proofs *)

Section EngineFacts.
Variable property : option string.
Variables from to : string.
Variable useRegex : bool.
Variable regex : option regex_t.

Local Abbreviation rsd := (replaceStringsDeep property from to useRegex regex).
Local Abbreviation SC := (scan property from to useRegex regex).
Local Abbreviation DR := (decide_replace from to useRegex regex).
Local Abbreviation LO := (leaf_out property from to useRegex regex).

Lemma string_or_not (c : tag) : {v | c = TString v} + {forall v, c <> TString v}.
Proof. destruct c; [left; eexists; reflexivity | right; discriminate ..]. Qed.

Lemma compound_child_other b rec parts k c li :
  (forall v, c <> TString v) ->
  compound_child property from to useRegex regex b rec parts k c li = rec c (parts ++ [k]) li.
Proof. destruct c; intro H; [exfalso; eapply H; reflexivity | reflexivity ..]. Qed.

Lemma list_child_other b rec parts i c li :
  (forall v, c <> TString v) ->
  list_child property from to useRegex regex b rec parts i c li = rec c (parts ++ [idx_seg i]) li.
Proof. destruct c; intro H; [exfalso; eapply H; reflexivity | reflexivity ..]. Qed.

Lemma children_loop_other rec parts k c rest :
  (forall v, c <> TString v) ->
  children_loop rec parts ((k, c) :: rest) = rec c (parts ++ [k]) ++ children_loop rec parts rest.
Proof. destruct c; intro H; [exfalso; eapply H; reflexivity | reflexivity ..]. Qed.

Lemma elements_loop_other rec parts i c rest :
  (forall v, c <> TString v) ->
  elements_loop rec parts i (c :: rest) = rec c (parts ++ [idx_seg i]) ++ elements_loop rec parts (S i) rest.
Proof. destruct c; intro H; [exfalso; eapply H; reflexivity | reflexivity ..]. Qed.

(** The scan of two lists of candidates, one after the other. *)
Lemma scan_app li l1 l2 :
  SC li (l1 ++ l2)
  = let '(c1, e1, li1) := SC li l1 in
    let '(c2, e2, li2) := SC li1 l2 in (c1 ++ c2, e1 ++ e2, li2).
Proof.
  revert li; induction l1 as [| [[segs s] v] l1 IH]; intro li; cbn [app scan].
  - destruct (SC li l2) as [[c2 e2] li2]; reflexivity.
  - destruct (eligible_at property s).
    + destruct (DR li v) as [d li0]. rewrite IH.
      destruct (SC li0 l1) as [[c1 e1] li1].
      destruct d; cbv beta iota zeta; destruct (SC li1 l2) as [[c2 e2] li2]; reflexivity.
    + rewrite IH. destruct (SC li l1) as [[c1 e1] li1]. cbv beta iota zeta.
      destruct (SC li1 l2) as [[c2 e2] li2]. reflexivity.
Qed.

(** The pass never turns a Compound, a List or another tag into a String. *)
Lemma rsd_not_string b t parts li :
  (forall v, t <> TString v) -> forall v, fst (fst (fst (rsd b t parts li))) <> TString v.
Proof.
  destruct t as [s | es | xs |]; intro H; [exfalso; eapply H; reflexivity | | | discriminate];
    cbn [replaceStringsDeep].
  - destruct (compound_loop property from to useRegex regex b (rsd b) parts es li) as [[[? ?] ?] ?].
    discriminate.
  - destruct (list_loop property from to useRegex regex b (rsd b) parts 0 xs li) as [[[? ?] ?] ?].
    discriminate.
Qed.

Ltac split4 t :=
  let a := fresh "t'" in let n := fresh "n" in let e := fresh "ev" in let l := fresh "li" in
  destruct t as [[[a n] e] l].

(** The pass and the reference scan agree: the String children of the
    returned tree are the scanned candidates, the callback calls are the
    scan's events (none without a callback), the count is their number and
    the final [lastIndex] is the scan's. *)
Lemma rsd_scan : forall t b parts li,
  match rsd b t parts li, SC li (string_children t parts) with
  | (t', n, ev, li'), (cs', evs, li'') =>
      string_children t' parts = cs' /\ ev = (if b then evs else [])
      /\ n = List.length evs /\ li' = li''
  end.
Proof.
  induction t as [s | es IH | xs IH |] using tag_ind'; intros b parts li.
  - simpl. destruct b; repeat split.
  - cbn [replaceStringsDeep string_children].
    enough (G : forall li,
      match compound_loop property from to useRegex regex b (rsd b) parts es li,
            SC li (children_loop string_children parts es) with
      | (es', n, ev, li'), (cs', evs, li'') =>
          children_loop string_children parts es' = cs' /\ ev = (if b then evs else [])
          /\ n = List.length evs /\ li' = li''
      end).
    { specialize (G li). revert G.
      split4 (compound_loop property from to useRegex regex b (rsd b) parts es li).
      destruct (SC li (children_loop string_children parts es)) as [[cs' evs] l'].
      intro G. exact G. }
    clear li. induction IH as [| [k c] rest Hc Hrest IHr]; intro li.
    + simpl. destruct b; repeat split.
    + cbn [compound_loop].
      destruct (string_or_not c) as [[v ->] | Hns].
      * unfold compound_child. cbn [children_loop scan eligible_at].
        destruct (negb (truthy property) || same_key property k).
        -- destruct (DR li v) as [[nv |] li0]; cbn [replaceStringsDeep]; specialize (IHr li0); revert IHr;
             split4 (compound_loop property from to useRegex regex b (rsd b) parts rest li0);
             destruct (SC li0 (children_loop string_children parts rest)) as [[cs' evs] li''];
             intros (H1 & H2 & H3 & H4); cbn [replaceStringsDeep children_loop];
             rewrite H1; subst; unfold emit; destruct b; repeat split.
        -- cbn [replaceStringsDeep]; specialize (IHr li); revert IHr;
             split4 (compound_loop property from to useRegex regex b (rsd b) parts rest li);
             destruct (SC li (children_loop string_children parts rest)) as [[cs' evs] li''];
             intros (H1 & H2 & H3 & H4); cbn [replaceStringsDeep children_loop];
             rewrite H1; subst; destruct b; repeat split.
      * rewrite compound_child_other, children_loop_other by exact Hns.
        rewrite scan_app.
        cbn [snd] in Hc. specialize (Hc b (parts ++ [k]) li). revert Hc.
        destruct (rsd b c (parts ++ [k]) li) as [[[c' n1] ev1] li1] eqn:Ec.
        destruct (SC li (string_children c (parts ++ [k]))) as [[cs1 e1] l1].
        intros (H1 & H2 & H3 & H4). subst li1.
        specialize (IHr l1). revert IHr.
        split4 (compound_loop property from to useRegex regex b (rsd b) parts rest l1).
        destruct (SC l1 (children_loop string_children parts rest)) as [[cs2 e2] l2].
        intros (G1 & G2 & G3 & G4).
        assert (Hc' : forall w, c' <> TString w).
        { pose proof (rsd_not_string b c (parts ++ [k]) li Hns) as R. rewrite Ec in R. exact R. }
        rewrite children_loop_other by exact Hc'.
        rewrite H1, G1. subst. rewrite length_app.
        destruct b; repeat split.
  - cbn [replaceStringsDeep string_children].
    enough (G : forall i li,
      match list_loop property from to useRegex regex b (rsd b) parts i xs li,
            SC li (elements_loop string_children parts i xs) with
      | (xs', n, ev, li'), (cs', evs, li'') =>
          elements_loop string_children parts i xs' = cs' /\ ev = (if b then evs else [])
          /\ n = List.length evs /\ li' = li''
      end).
    { specialize (G 0 li). revert G.
      split4 (list_loop property from to useRegex regex b (rsd b) parts 0 xs li).
      destruct (SC li (elements_loop string_children parts 0 xs)) as [[cs' evs] l'].
      intro G. exact G. }
    clear li. induction IH as [| c rest Hc Hrest IHr]; intros i li.
    + simpl. destruct b; repeat split.
    + cbn [list_loop].
      destruct (string_or_not c) as [[v ->] | Hns].
      * unfold list_child. cbn [elements_loop scan eligible_at].
        destruct (negb (truthy property)).
        -- destruct (DR li v) as [[nv |] li0]; cbn [replaceStringsDeep]; specialize (IHr (S i) li0); revert IHr;
             split4 (list_loop property from to useRegex regex b (rsd b) parts (S i) rest li0);
             destruct (SC li0 (elements_loop string_children parts (S i) rest)) as [[cs' evs] li''];
             intros (H1 & H2 & H3 & H4); cbn [replaceStringsDeep elements_loop];
             rewrite H1; subst; unfold emit; destruct b; repeat split.
        -- cbn [replaceStringsDeep]; specialize (IHr (S i) li); revert IHr;
             split4 (list_loop property from to useRegex regex b (rsd b) parts (S i) rest li);
             destruct (SC li (elements_loop string_children parts (S i) rest)) as [[cs' evs] li''];
             intros (H1 & H2 & H3 & H4); cbn [replaceStringsDeep elements_loop];
             rewrite H1; subst; destruct b; repeat split.
      * rewrite list_child_other, elements_loop_other by exact Hns.
        rewrite scan_app.
        specialize (Hc b (parts ++ [idx_seg i]) li). revert Hc.
        destruct (rsd b c (parts ++ [idx_seg i]) li) as [[[c' n1] ev1] li1] eqn:Ec.
        destruct (SC li (string_children c (parts ++ [idx_seg i]))) as [[cs1 e1] l1].
        intros (H1 & H2 & H3 & H4). subst li1.
        specialize (IHr (S i) l1). revert IHr.
        split4 (list_loop property from to useRegex regex b (rsd b) parts (S i) rest l1).
        destruct (SC l1 (elements_loop string_children parts (S i) rest)) as [[cs2 e2] l2].
        intros (G1 & G2 & G3 & G4).
        assert (Hc' : forall w, c' <> TString w).
        { pose proof (rsd_not_string b c (parts ++ [idx_seg i]) li Hns) as R. rewrite Ec in R. exact R. }
        rewrite elements_loop_other by exact Hc'.
        rewrite H1, G1. subst. rewrite length_app.
        destruct b; repeat split.
  - simpl. destruct b; repeat split.
Qed.

(** Whether a callback is installed changes only the events: the tree, the
    count and the final [lastIndex] are the same. *)
Lemma rsd_onReplace : forall t b parts li,
  match rsd b t parts li, rsd false t parts li with
  | (t1, n1, _, l1), (t2, n2, _, l2) => t1 = t2 /\ n1 = n2 /\ l1 = l2
  end.
Proof.
  induction t as [s | es IH | xs IH |] using tag_ind'; intros b parts li; try (simpl; repeat split).
  - cbn [replaceStringsDeep].
    enough (G : forall li, match compound_loop property from to useRegex regex b (rsd b) parts es li,
                                 compound_loop property from to useRegex regex false (rsd false) parts es li with
                           | (e1, n1, _, l1), (e2, n2, _, l2) => e1 = e2 /\ n1 = n2 /\ l1 = l2
                           end).
    { specialize (G li). revert G.
      split4 (compound_loop property from to useRegex regex b (rsd b) parts es li).
      destruct (compound_loop property from to useRegex regex false (rsd false) parts es li)
        as [[[e2 n2] ev2] l2].
      intros (-> & -> & ->). repeat split. }
    clear li. induction IH as [| [k c] rest Hc Hrest IHr]; intro li; [repeat split |].
    cbn [compound_loop].
    assert (Hstep : match compound_child property from to useRegex regex b (rsd b) parts k c li,
                          compound_child property from to useRegex regex false (rsd false) parts k c li with
                    | (c1, n1, _, l1), (c2, n2, _, l2) => c1 = c2 /\ n1 = n2 /\ l1 = l2
                    end).
    { destruct (string_or_not c) as [[v ->] | Hns].
      - unfold compound_child. destruct (negb (truthy property) || same_key property k);
          [destruct (DR li v) as [[nv |] li0] |]; repeat split.
      - rewrite !compound_child_other by exact Hns. apply Hc. }
    revert Hstep.
    split4 (compound_child property from to useRegex regex b (rsd b) parts k c li).
    destruct (compound_child property from to useRegex regex false (rsd false) parts k c li)
      as [[[c2 n2] ev2] l2].
    intros (-> & -> & ->).
    specialize (IHr l2). revert IHr.
    split4 (compound_loop property from to useRegex regex b (rsd b) parts rest l2).
    destruct (compound_loop property from to useRegex regex false (rsd false) parts rest l2)
      as [[[r2 m2] ew2] k2].
    intros (-> & -> & ->). repeat split.
  - cbn [replaceStringsDeep].
    enough (G : forall i li, match list_loop property from to useRegex regex b (rsd b) parts i xs li,
                                   list_loop property from to useRegex regex false (rsd false) parts i xs li with
                             | (e1, n1, _, l1), (e2, n2, _, l2) => e1 = e2 /\ n1 = n2 /\ l1 = l2
                             end).
    { specialize (G 0 li). revert G.
      split4 (list_loop property from to useRegex regex b (rsd b) parts 0 xs li).
      destruct (list_loop property from to useRegex regex false (rsd false) parts 0 xs li)
        as [[[e2 n2] ev2] l2].
      intros (-> & -> & ->). repeat split. }
    clear li. induction IH as [| c rest Hc Hrest IHr]; intros i li; [repeat split |].
    cbn [list_loop].
    assert (Hstep : match list_child property from to useRegex regex b (rsd b) parts i c li,
                          list_child property from to useRegex regex false (rsd false) parts i c li with
                    | (c1, n1, _, l1), (c2, n2, _, l2) => c1 = c2 /\ n1 = n2 /\ l1 = l2
                    end).
    { destruct (string_or_not c) as [[v ->] | Hns].
      - unfold list_child. destruct (negb (truthy property));
          [destruct (DR li v) as [[nv |] li0] |]; repeat split.
      - rewrite !list_child_other by exact Hns. apply Hc. }
    revert Hstep.
    split4 (list_child property from to useRegex regex b (rsd b) parts i c li).
    destruct (list_child property from to useRegex regex false (rsd false) parts i c li)
      as [[[c2 n2] ev2] l2].
    intros (-> & -> & ->).
    specialize (IHr (S i) l2). revert IHr.
    split4 (list_loop property from to useRegex regex b (rsd b) parts (S i) rest l2).
    destruct (list_loop property from to useRegex regex false (rsd false) parts (S i) rest l2)
      as [[[r2 m2] ew2] k2].
    intros (-> & -> & ->). repeat split.
Qed.

(** The returned count is the number of events of the scan. *)
Lemma rsd_count b t parts li :
  snd (fst (fst (rsd b t parts li))) = List.length (snd (fst (SC li (string_children t parts)))).
Proof.
  pose proof (rsd_scan t b parts li) as H. revert H.
  split4 (rsd b t parts li). destruct (SC li (string_children t parts)) as [[cs' evs] l'].
  intros (_ & _ & H & _). exact H.
Qed.

(** The String children of the returned tree are the scanned candidates. *)
Lemma rsd_children b t parts li :
  string_children (fst (fst (fst (rsd b t parts li)))) parts = fst (fst (SC li (string_children t parts))).
Proof.
  pose proof (rsd_scan t b parts li) as H. revert H.
  split4 (rsd b t parts li). destruct (SC li (string_children t parts)) as [[cs' evs] l'].
  intros (H & _). exact H.
Qed.

(** The pass changes String values only. *)
Lemma rsd_shape : forall t b parts li, shape (fst (fst (fst (rsd b t parts li)))) = shape t.
Proof.
  induction t as [s | es IH | xs IH |] using tag_ind'; intros b parts li; try reflexivity.
  - cbn [replaceStringsDeep].
    enough (G : forall li, map (fun e => (fst e, shape (snd e)))
                             (fst (fst (fst (compound_loop property from to useRegex regex b (rsd b) parts es li))))
                           = map (fun e => (fst e, shape (snd e))) es).
    { specialize (G li). revert G.
      split4 (compound_loop property from to useRegex regex b (rsd b) parts es li).
      intro G. cbn [fst shape]. f_equal. exact G. }
    clear li. induction IH as [| [k c] rest Hc Hrest IHr]; intro li; [reflexivity |].
    cbn [compound_loop].
    assert (Hstep : forall li, shape (fst (fst (fst (compound_child property from to useRegex regex b (rsd b) parts k c li))))
                               = shape c).
    { intro l. destruct (string_or_not c) as [[v ->] | Hns].
      - unfold compound_child. destruct (negb (truthy property) || same_key property k);
          [destruct (DR l v) as [[nv |] li0] |]; reflexivity.
      - rewrite compound_child_other by exact Hns. apply Hc. }
    specialize (Hstep li). revert Hstep.
    split4 (compound_child property from to useRegex regex b (rsd b) parts k c li).
    intro Hstep. specialize (IHr li0). revert IHr.
    split4 (compound_loop property from to useRegex regex b (rsd b) parts rest li0).
    intro IHr. cbn [fst snd map] in *. rewrite Hstep, IHr. reflexivity.
  - cbn [replaceStringsDeep].
    enough (G : forall i li, map shape
                             (fst (fst (fst (list_loop property from to useRegex regex b (rsd b) parts i xs li))))
                           = map shape xs).
    { specialize (G 0 li). revert G.
      split4 (list_loop property from to useRegex regex b (rsd b) parts 0 xs li).
      intro G. cbn [fst shape]. f_equal. exact G. }
    clear li. induction IH as [| c rest Hc Hrest IHr]; intros i li; [reflexivity |].
    cbn [list_loop].
    assert (Hstep : forall li, shape (fst (fst (fst (list_child property from to useRegex regex b (rsd b) parts i c li))))
                               = shape c).
    { intro l. destruct (string_or_not c) as [[v ->] | Hns].
      - unfold list_child. destruct (negb (truthy property));
          [destruct (DR l v) as [[nv |] li0] |]; reflexivity.
      - rewrite list_child_other by exact Hns. apply Hc. }
    specialize (Hstep li). revert Hstep.
    split4 (list_child property from to useRegex regex b (rsd b) parts i c li).
    intro Hstep. specialize (IHr (S i) li0). revert IHr.
    split4 (list_loop property from to useRegex regex b (rsd b) parts (S i) rest li0).
    intro IHr. cbn [fst snd map] in *. rewrite Hstep, IHr. reflexivity.
Qed.

(** A candidate every replacement decision keeps. *)
Definition leaf_kept (x : list string * seg * string) : Prop :=
  let '(_, s, v) := x in forall L, LO L s v = v.

(** The pass leaves a tree as it is when every decision keeps its
    String children. *)
Lemma rsd_kept : forall t b parts li,
  Forall leaf_kept (string_children t parts) -> fst (fst (fst (rsd b t parts li))) = t.
Proof.
  induction t as [s | es IH | xs IH |] using tag_ind'; intros b parts li H; try reflexivity.
  - cbn [replaceStringsDeep]. cbn [string_children] in H.
    enough (G : forall li, Forall leaf_kept (children_loop string_children parts es) ->
                  fst (fst (fst (compound_loop property from to useRegex regex b (rsd b) parts es li))) = es).
    { specialize (G li H). revert G.
      split4 (compound_loop property from to useRegex regex b (rsd b) parts es li).
      intro G. cbn [fst] in G |- *. rewrite G. reflexivity. }
    clear li H. induction IH as [| [k c] rest Hc Hrest IHr]; intros li H; [reflexivity |].
    cbn [compound_loop].
    assert (Hstep : Forall leaf_kept (children_loop string_children parts rest)
                    /\ forall li, fst (fst (fst (compound_child property from to useRegex regex b (rsd b) parts k c li))) = c).
    { destruct (string_or_not c) as [[v ->] | Hns].
      - cbn [children_loop] in H. inversion H as [| ? ? Hk Hr]; subst. split; [exact Hr |].
        intro l. specialize (Hk l). unfold leaf_out, eligible_at in Hk. unfold compound_child.
        destruct (negb (truthy property) || same_key property k); [| reflexivity].
        destruct (DR l v) as [[nv |] li0]; simpl in Hk |- *; [rewrite Hk |]; reflexivity.
      - rewrite children_loop_other in H by exact Hns. apply Forall_app in H as [H1 H2].
        split; [exact H2 |]. intro l. rewrite compound_child_other by exact Hns. apply Hc, H1. }
    destruct Hstep as [Hr Hstep]. specialize (Hstep li). revert Hstep.
    split4 (compound_child property from to useRegex regex b (rsd b) parts k c li).
    intro Hstep. specialize (IHr li0 Hr). revert IHr.
    split4 (compound_loop property from to useRegex regex b (rsd b) parts rest li0).
    intro IHr. cbn [fst] in *. rewrite Hstep, IHr. reflexivity.
  - cbn [replaceStringsDeep]. cbn [string_children] in H.
    enough (G : forall i li, Forall leaf_kept (elements_loop string_children parts i xs) ->
                  fst (fst (fst (list_loop property from to useRegex regex b (rsd b) parts i xs li))) = xs).
    { specialize (G 0 li H). revert G.
      split4 (list_loop property from to useRegex regex b (rsd b) parts 0 xs li).
      intro G. cbn [fst] in G |- *. rewrite G. reflexivity. }
    clear li H. induction IH as [| c rest Hc Hrest IHr]; intros i li H; [reflexivity |].
    cbn [list_loop].
    assert (Hstep : Forall leaf_kept (elements_loop string_children parts (S i) rest)
                    /\ forall li, fst (fst (fst (list_child property from to useRegex regex b (rsd b) parts i c li))) = c).
    { destruct (string_or_not c) as [[v ->] | Hns].
      - cbn [elements_loop] in H. inversion H as [| ? ? Hk Hr]; subst. split; [exact Hr |].
        intro l. specialize (Hk l). unfold leaf_out, eligible_at in Hk. unfold list_child.
        destruct (negb (truthy property)); [| reflexivity].
        destruct (DR l v) as [[nv |] li0]; simpl in Hk |- *; [rewrite Hk |]; reflexivity.
      - rewrite elements_loop_other in H by exact Hns. apply Forall_app in H as [H1 H2].
        split; [exact H2 |]. intro l. rewrite list_child_other by exact Hns. apply Hc, H1. }
    destruct Hstep as [Hr Hstep]. specialize (Hstep li). revert Hstep.
    split4 (list_child property from to useRegex regex b (rsd b) parts i c li).
    intro Hstep. specialize (IHr (S i) li0 Hr). revert IHr.
    split4 (list_loop property from to useRegex regex b (rsd b) parts (S i) rest li0).
    intro IHr. cbn [fst] in *. rewrite Hstep, IHr. reflexivity.
Qed.

Lemma lookup_app t p q :
  lookup t (p ++ q) = match lookup t p with Some n => lookup n q | None => None end.
Proof.
  revert t; induction p as [| s p IH]; intro t; [reflexivity |].
  destruct s as [k | i], t; simpl; try reflexivity.
  - destruct (find_key k l); [apply IH | reflexivity].
  - destruct (nth_error l i); [apply IH | reflexivity].
Qed.

(** The entry stored under [k] after the Compound loop is the result of
    the loop's step for that entry, taken at some [lastIndex]. *)
Lemma find_key_loop b parts k c : forall es li,
  find_key k es = Some c ->
  exists L, find_key k (fst (fst (fst (compound_loop property from to useRegex regex b (rsd b) parts es li))))
            = Some (fst (fst (fst (compound_child property from to useRegex regex b (rsd b) parts k c L)))).
Proof.
  induction es as [| [k' c'] rest IH]; intros li H; [discriminate |].
  cbn [compound_loop]. cbn [find_key] in H.
  destruct (compound_child property from to useRegex regex b (rsd b) parts k' c' li)
    as [[[c'' n1] ev1] li1] eqn:Ec.
  destruct (compound_loop property from to useRegex regex b (rsd b) parts rest li1)
    as [[[rest' n2] ev2] li2] eqn:Er.
  cbn [fst find_key]. destruct (String.eqb_spec k' k) as [-> | Hne].
  - injection H as <-. exists li. rewrite Ec. reflexivity.
  - destruct (IH li1 H) as [L HL]. rewrite Er in HL. exists L. exact HL.
Qed.

Lemma nth_loop b parts c : forall xs i j li,
  nth_error xs j = Some c ->
  exists L, nth_error (fst (fst (fst (list_loop property from to useRegex regex b (rsd b) parts i xs li)))) j
            = Some (fst (fst (fst (list_child property from to useRegex regex b (rsd b) parts (i + j) c L)))).
Proof.
  induction xs as [| x rest IH]; intros i j li H; [destruct j; discriminate |].
  cbn [list_loop].
  destruct (list_child property from to useRegex regex b (rsd b) parts i x li)
    as [[[x' n1] ev1] li1] eqn:Ec.
  destruct (list_loop property from to useRegex regex b (rsd b) parts (S i) rest li1)
    as [[[rest' n2] ev2] li2] eqn:Er.
  destruct j as [| j]; cbn [fst nth_error] in H |- *.
  - injection H as <-. exists li. rewrite Nat.add_0_r, Ec. reflexivity.
  - destruct (IH (S i) j li1 H) as [L HL]. rewrite Er in HL. exists L.
    rewrite Nat.add_succ_r. exact HL.
Qed.

Lemma compound_child_string b parts k v L :
  fst (fst (fst (compound_child property from to useRegex regex b (rsd b) parts k (TString v) L)))
  = TString (LO L (SKey k) v).
Proof.
  unfold compound_child, leaf_out, eligible_at.
  destruct (negb (truthy property) || same_key property k); [| reflexivity].
  destruct (DR L v) as [[nv |] li]; reflexivity.
Qed.

Lemma list_child_string b parts i v L :
  fst (fst (fst (list_child property from to useRegex regex b (rsd b) parts i (TString v) L)))
  = TString (LO L (SIdx i) v).
Proof.
  unfold list_child, leaf_out, eligible_at.
  destruct (negb (truthy property)); [| reflexivity].
  destruct (DR L v) as [[nv |] li]; reflexivity.
Qed.

Lemma lookup_path_not_string c p s v :
  lookup c (p ++ [s]) = Some (TString v) -> forall w, c <> TString w.
Proof. intros H w ->. destruct p as [| s' p]; destruct s; try destruct s'; discriminate. Qed.

(** A String tag reached through [p ++ [s]] holds, after the pass, the
    value its replacement decision gives at the [lastIndex] the regex has
    when the pass reaches it. *)
Lemma lookup_leaf p : forall t b parts li s v,
  lookup t (p ++ [s]) = Some (TString v) ->
  exists L, lookup (fst (fst (fst (rsd b t parts li)))) (p ++ [s]) = Some (TString (LO L s v)).
Proof.
  induction p as [| s0 p IH]; intros t b parts li s v H.
  - cbn [app lookup] in H |- *. destruct s as [k | i], t as [| es | xs |]; try discriminate.
    + destruct (find_key k es) as [c |] eqn:F; [| discriminate]. injection H as ->.
      destruct (find_key_loop b parts k (TString v) es li F) as [L HL].
      exists L. cbn [replaceStringsDeep].
      revert HL. split4 (compound_loop property from to useRegex regex b (rsd b) parts es li).
      cbn [fst]. intro HL. rewrite HL, compound_child_string. reflexivity.
    + destruct (nth_error xs i) as [c |] eqn:F; [| discriminate]. injection H as ->.
      destruct (nth_loop b parts (TString v) xs 0 i li F) as [L HL].
      exists L. cbn [replaceStringsDeep].
      revert HL. split4 (list_loop property from to useRegex regex b (rsd b) parts 0 xs li).
      cbn [fst]. intro HL. rewrite HL, list_child_string. reflexivity.
  - cbn [app lookup] in H |- *. destruct s0 as [k | i], t as [| es | xs |]; try discriminate.
    + destruct (find_key k es) as [c |] eqn:F; [| discriminate].
      pose proof (lookup_path_not_string c p s v H) as Hns.
      destruct (find_key_loop b parts k c es li F) as [L HL].
      rewrite compound_child_other in HL by exact Hns.
      destruct (IH c b (parts ++ [k]) L s v H) as [L' HL'].
      exists L'. cbn [replaceStringsDeep].
      revert HL. split4 (compound_loop property from to useRegex regex b (rsd b) parts es li).
      cbn [fst]. intro HL. rewrite HL. exact HL'.
    + destruct (nth_error xs i) as [c |] eqn:F; [| discriminate].
      pose proof (lookup_path_not_string c p s v H) as Hns.
      destruct (nth_loop b parts c xs 0 i li F) as [L HL].
      rewrite list_child_other in HL by exact Hns.
      destruct (IH c b (parts ++ [idx_seg (0 + i)]) L s v H) as [L' HL'].
      exists L'. cbn [replaceStringsDeep].
      revert HL. split4 (list_loop property from to useRegex regex b (rsd b) parts 0 xs li).
      cbn [fst]. intro HL. rewrite HL. exact HL'.
Qed.

End EngineFacts.

(** ** Matcher/replacer claims *)

(** C1: with [isPatternMatch = false] ([regex] not requested), an eligible
    String tag ends up holding [to] exactly when its whole value equals
    [from], and keeps its value otherwise, also when [from] is a proper
    substring of it; the regex's [lastIndex] plays no part. *)
Theorem exact_match_whole_value property from to regex lastIndex t p s v :
  lookup t (p ++ [s]) = Some (TString v) ->
  eligible_at property s = true ->
  lookup (out property from to false regex lastIndex t) (p ++ [s])
  = Some (TString (if String.eqb v from then to else v)).
Proof.
  intros Hl He. unfold out.
  destruct (lookup_leaf property from to false regex p t false [] lastIndex s v Hl) as [L HL].
  rewrite HL. unfold leaf_out. rewrite He. unfold decide_replace.
  destruct (String.eqb v from); reflexivity.
Qed.

Lemma exact_match_whole_value_witness :
  lookup (TCompound [("Name", TString "minecraft:stone_slab")]) ([] ++ [SKey "Name"])
    = Some (TString "minecraft:stone_slab")
  /\ eligible_at None (SKey "Name") = true
  /\ lookup (out None "minecraft:stone" "minecraft:cobblestone" false None 0
               (TCompound [("Name", TString "minecraft:stone_slab")])) ([] ++ [SKey "Name"])
     = Some (TString "minecraft:stone_slab").
Proof.
  split; [reflexivity | split; [reflexivity |]].
  apply (exact_match_whole_value None "minecraft:stone" "minecraft:cobblestone" None 0
           (TCompound [("Name", TString "minecraft:stone_slab")]) [] (SKey "Name")
           "minecraft:stone_slab"); reflexivity.
Defined.

(** C2 (at the failing input): a [property] given as the empty string is
    falsy for [!property], so the rule treats every key as eligible and also
    rewrites List elements, although the filter is present and equals none
    of the keys. *)
Theorem empty_property_filter_matches_all :
  replaceStringsDeep (Some "") "west" "north" false None false
    (TCompound [("facing", TString "west"); ("direction", TString "west");
                ("list", TList [TString "west"])]) [] 0
  = (TCompound [("facing", TString "north"); ("direction", TString "north");
                ("list", TList [TString "north"])], 3, [], 0).
Proof. reflexivity. Qed.

(** C7 counterexample: without a callback ([notify] off) the engine counts
    a replacement but emits no change event. *)
Lemma events_need_callback :
  snd (fst (fst (replaceStringsDeep None "w" "n" false None false (TCompound [("k", TString "w")]) [] 0))) = 1
  /\ snd (fst (replaceStringsDeep None "w" "n" false None false (TCompound [("k", TString "w")]) [] 0)) = [].
Proof. split; reflexivity. Qed.

(** C7 (amended): with a callback installed, the calls it receives are
    exactly one per replacement, each with the full [" > "]-joined path of
    the mutated tag, in depth-first order (Map keys in stored order, List
    elements in index order), and their number is the returned count;
    without a callback there are no events and the count is the same. *)
Theorem change_events_dfs property from to useRegex regex lastIndex t :
  let '(_, n, ev, _) := replaceStringsDeep property from to useRegex regex true t [] lastIndex in
  ev = spec_events property from to useRegex regex lastIndex t []
  /\ n = List.length ev
  /\ snd (fst (replaceStringsDeep property from to useRegex regex false t [] lastIndex)) = []
  /\ snd (fst (fst (replaceStringsDeep property from to useRegex regex false t [] lastIndex))) = n.
Proof.
  pose proof (rsd_scan property from to useRegex regex t true [] lastIndex) as H1.
  pose proof (rsd_scan property from to useRegex regex t false [] lastIndex) as H2.
  unfold spec_events.
  destruct (scan property from to useRegex regex lastIndex (string_children t [])) as [[cs' evs] l'].
  destruct (replaceStringsDeep property from to useRegex regex true t [] lastIndex) as [[[t1 n1] ev1] l1].
  destruct (replaceStringsDeep property from to useRegex regex false t [] lastIndex) as [[[t2 n2] ev2] l2].
  destruct H1 as (_ & E1 & N1 & _). destruct H2 as (_ & E2 & N2 & _).
  cbn [fst snd]. subst. repeat split.
Qed.

(** C9 counterexample: the template ["a"] does not match [/ab/g], yet the
    second pass over ["abb"] (which became ["ab"]) changes it again; and a
    sticky regex without [g] defeats the second pass even when each
    substitution is stable: [/a/y] with the template ["b"] leaves ["ab"]
    alone in the first pass (its match is tried at [lastIndex = 1]) and
    turns it into ["bb"] in a second pass started at [lastIndex = 0]. *)
Lemma idempotence_fails_for_patterns :
  literal_global_regex "ab" 0 "a" "a" = ("a", 0)
  /\ changes None "ab" "a" true (Some (literal_global_regex "ab")) 0
       (TCompound [("Name", TString "abb")]) = 1
  /\ out None "ab" "a" true (Some (literal_global_regex "ab")) 0
       (TCompound [("Name", TString "abb")]) = TCompound [("Name", TString "ab")]
  /\ changes None "ab" "a" true (Some (literal_global_regex "ab")) 0
       (out None "ab" "a" true (Some (literal_global_regex "ab")) 0
          (TCompound [("Name", TString "abb")])) = 1
  /\ out None "a" "b" true (Some (literal_sticky_regex "a")) 0
       (TCompound [("k1", TString "a"); ("k2", TString "ab")])
     = TCompound [("k1", TString "b"); ("k2", TString "ab")]
  /\ changes None "a" "b" true (Some (literal_sticky_regex "a")) 0
       (out None "a" "b" true (Some (literal_sticky_regex "a")) 0
          (TCompound [("k1", TString "a"); ("k2", TString "ab")])) = 1.
Proof. repeat split; vm_compute; reflexivity. Qed.

(** The facts about one replacement decision behind the second pass: a
    value the decision keeps is kept at every [lastIndex], and a value it
    produces is kept at every [lastIndex]. *)
Lemma stable_decision from to useRegex regex :
  match useRegex, regex with
  | true, Some re => stateless re /\ forall L v, fst (re L (fst (re L v to)) to) = fst (re L v to)
  | _, _ => to <> from
  end ->
  forall L L' v,
    (fst (decide_replace from to useRegex regex L v) = None ->
     fst (decide_replace from to useRegex regex L' v) = None)
    /\ (forall nv, fst (decide_replace from to useRegex regex L v) = Some nv ->
        fst (decide_replace from to useRegex regex L' nv) = None).
Proof.
  intros Hyp L L' v. unfold decide_replace.
  destruct useRegex; [destruct regex as [re |] |]; cbn [fst].
  - destruct Hyp as [Hs Hi].
    destruct (re L v to) as [w l] eqn:E1. destruct (re L' v to) as [w' l'] eqn:E2.
    assert (Ew : w' = w).
    { pose proof (Hs L' L v to) as X. rewrite E1, E2 in X. exact X. }
    subst w'. cbn [fst]. split.
    + intro H. exact H.
    + intros nv H. destruct (String.eqb_spec w v); [discriminate |]. injection H as <-.
      destruct (re L' w to) as [u lu] eqn:E3. cbn [fst].
      assert (Eu : u = w).
      { pose proof (Hs L' L w to) as X. pose proof (Hi L v) as Y.
        rewrite E3 in X. rewrite E1 in Y. cbn [fst] in X, Y. congruence. }
      rewrite Eu, String.eqb_refl. reflexivity.
  - split; [intro H; exact H |]. intros nv H.
    destruct (String.eqb v from); [injection H as E; subst nv | discriminate].
    destruct (String.eqb_spec to from); [contradiction | reflexivity].
  - split; [intro H; exact H |]. intros nv H.
    destruct (String.eqb v from); [injection H as E; subst nv | discriminate].
    destruct (String.eqb_spec to from); [contradiction | reflexivity].
Qed.

(** Scanning the scanned candidates again, from any [lastIndex], yields no
    event when the decisions are stable. *)
Lemma scan_second_pass property from to useRegex regex :
  match useRegex, regex with
  | true, Some re => stateless re /\ forall L v, fst (re L (fst (re L v to)) to) = fst (re L v to)
  | _, _ => to <> from
  end ->
  forall cs L1 L2,
  snd (fst (scan property from to useRegex regex L2
              (fst (fst (scan property from to useRegex regex L1 cs))))) = [].
Proof.
  intros Hyp. pose proof (stable_decision from to useRegex regex Hyp) as St.
  induction cs as [| [[segs s] v] cs IH]; intros L1 L2; [reflexivity |].
  cbn [scan]. destruct (eligible_at property s) eqn:E.
  - destruct (decide_replace from to useRegex regex L1 v) as [d l1] eqn:D.
    specialize (IH l1).
    destruct (scan property from to useRegex regex l1 cs) as [[cs' ev] l1'] eqn:S1.
    cbn [fst] in IH.
    destruct d as [nv |]; cbn [fst scan]; rewrite E.
    + destruct (St L1 L2 v) as [_ Hb]. rewrite D in Hb. specialize (Hb nv eq_refl).
      destruct (decide_replace from to useRegex regex L2 nv) as [d2 l2] eqn:D2.
      cbn [fst] in Hb. subst d2. specialize (IH l2).
      destruct (scan property from to useRegex regex l2 cs') as [[cs'' ev'] l2'].
      exact IH.
    + destruct (St L1 L2 v) as [Ha _]. rewrite D in Ha. specialize (Ha eq_refl).
      destruct (decide_replace from to useRegex regex L2 v) as [d2 l2] eqn:D2.
      cbn [fst] in Ha. subst d2. specialize (IH l2).
      destruct (scan property from to useRegex regex l2 cs') as [[cs'' ev'] l2'].
      exact IH.
  - specialize (IH L1).
    destruct (scan property from to useRegex regex L1 cs) as [[cs' ev] l1'] eqn:S1.
    cbn [fst scan] in IH |- *. rewrite E. specialize (IH L2).
    destruct (scan property from to useRegex regex L2 cs') as [[cs'' ev'] l2'].
    exact IH.
Qed.

(** The second pass of a rule whose result is stable changes nothing,
    whatever [lastIndex] either pass starts from. *)
Lemma second_pass_zero property from to useRegex regex L1 L2 t :
  match useRegex, regex with
  | true, Some re => stateless re /\ forall L v, fst (re L (fst (re L v to)) to) = fst (re L v to)
  | _, _ => to <> from
  end ->
  changes property from to useRegex regex L2 (out property from to useRegex regex L1 t) = 0.
Proof.
  intro Hyp. unfold changes. rewrite rsd_count. unfold out. rewrite rsd_children.
  rewrite (scan_second_pass property from to useRegex regex Hyp). reflexivity.
Qed.

(** C9 (amended): a second pass changes nothing for exact matching when
    [to <> from], and for pattern matching when the regex does not depend
    on [lastIndex] (not a sticky regex without [g]) and substituting into
    an already substituted value leaves it unchanged. *)
Theorem second_pass_no_changes property from to useRegex regex L1 L2 t :
  match useRegex, regex with
  | true, Some re => stateless re /\ forall L v, fst (re L (fst (re L v to)) to) = fst (re L v to)
  | _, _ => to <> from
  end ->
  changes property from to useRegex regex L2 (out property from to useRegex regex L1 t) = 0.
Proof.
  intro Hyp. unfold changes. rewrite rsd_count. unfold out. rewrite rsd_children.
  rewrite (scan_second_pass property from to useRegex regex Hyp). reflexivity.
Qed.

Lemma second_pass_no_changes_witness :
  ("north" <> "west")
  /\ changes None "west" "north" false None 0
       (out None "west" "north" false None 0
          (TCompound [("facing", TString "west"); ("list", TList [TString "west"])])) = 0.
Proof.
  split; [discriminate |].
  apply (second_pass_no_changes None "west" "north" false None 0 0
           (TCompound [("facing", TString "west"); ("list", TList [TString "west"])])).
  simpl; discriminate.
Defined.

(** C10: a String tag handed to [replaceStringsDeep] as the root is returned
    as it is, with no change counted and the regex untouched, whatever the
    rule. *)
Theorem root_string_untouched property from to useRegex regex onReplace v parts lastIndex :
  replaceStringsDeep property from to useRegex regex onReplace (TString v) parts lastIndex
  = (TString v, 0, [], lastIndex).
Proof. reflexivity. Qed.


(** ** Controller claims *)

Section ControllerFacts.
Local Open Scope Q_scope.

Lemma Qltb_reflect x y : reflect (x < y) (Qltb x y).
Proof.
  unfold Qltb. destruct (Qle_bool y x) eqn:E; constructor.
  - apply Qle_bool_iff in E. apply Qle_not_lt; exact E.
  - apply Qnot_le_lt. intro H. apply Qle_bool_iff in H. congruence.
Qed.

Definition conc_ok (st : controller) : Prop :=
  1 <= currentConcurrency st /\ currentConcurrency st <= maxConcurrency st.

Lemma adjust_conc_ok st : conc_ok st -> conc_ok (adjustConcurrency st).
Proof.
  unfold conc_ok, adjustConcurrency. intros [H1 H2].
  destruct (List.length (recentTimes st) <? 3)%nat; [split; assumption |].
  destruct (Qltb _ _ && Qltb _ _); simpl.
  - split.
    + apply Q.min_glb; lra.
    + apply Q.le_min_l.
  - destruct (Qltb _ _ && Qltb _ _); simpl; [| split; assumption].
    split.
    + apply Q.le_max_l.
    + apply Q.max_lub; lra.
Qed.

Lemma record_conc_ok st d : conc_ok st -> conc_ok (recordCompletion st d).
Proof.
  intro H. unfold recordCompletion.
  destruct (adjustmentInterval <=? _)%nat; [| exact H].
  match goal with |- conc_ok {| maxConcurrency := maxConcurrency (adjustConcurrency ?s) |} =>
    pose proof (adjust_conc_ok s H) as H' end.
  exact H'.
Qed.

Lemma new_controller_conc_ok C : conc_ok (new_controller C).
Proof.
  unfold conc_ok, new_controller; cbn [currentConcurrency maxConcurrency].
  split; [apply Q.le_max_l |].
  apply Q.max_lub; [apply Q.le_max_l |].
  pose proof (Qfloor_le (C / 2)) as Hf.
  pose proof (Q.le_max_l 1 C) as H1. pose proof (Q.le_max_r 1 C) as H2.
  change (C / 2) with (C * (1 # 2)) in *.
  destruct (Qlt_le_dec C 0); lra.
Qed.




End ControllerFacts.

(** C5: the controller starts at [max(1, floor(C/2))], and
    [1 <= currentConcurrency <= maxConcurrency] holds at the start and after
    any sequence of task completions (and so after every adjustment). *)
Theorem controller_bounds (C : Q) (ds : list Z) :
  currentConcurrency (new_controller C) = Qmax 1 (inject_Z (Qfloor (C / 2)))
  /\ (1 <= currentConcurrency (new_controller C) <= maxConcurrency (new_controller C))%Q
  /\ (1 <= currentConcurrency (run_completions (new_controller C) ds)
        <= maxConcurrency (run_completions (new_controller C) ds))%Q.
Proof.
  split; [reflexivity |]. split; [apply new_controller_conc_ok |].
  unfold run_completions.
  generalize (new_controller C) (new_controller_conc_ok C).
  induction ds as [| d ds IH]; intros st H; [exact H |].
  simpl. apply IH, record_conc_ok, H.
Qed.




Example controller_grows_to_fraction :
  let st5 := run_completions (new_controller (5 # 2)) [100; 100; 10; 10; 10]%Z in
  let st10 := run_completions st5 [100; 100; 1; 1; 1]%Z in
  (Qeq_bool (currentConcurrency (new_controller (5 # 2))) 1,
   Qeq_bool (currentConcurrency st5) 2, Qeq_bool (currentConcurrency st10) (5 # 2))
  = (true, true, true).
Proof. vm_compute. reflexivity. Qed.

(** ** Configuration and dispatcher claims *)

Example norm_pattern_backspace :
  norm_pattern (String (ascii_of_nat 8) "w") = "\bw".
Proof. reflexivity. Qed.

(** C3 counterexample: the second rule lacks [to]; the run exits with code 1,
    but only after the first rule's file has been handed to a job. *)
Lemma invalid_rule_after_processing :
  run_rules (fun _ => ["a.nbt"]) (fun _ _ => true) (fun _ _ _ v _ => (v, 0)) None
    (fun _ _ _ _ _ _ _ _ => JobDone 1 1) 0
    [Some (Rule (Some "**/*.nbt") None (Some "old") (Some "new") false None None);
     Some (Rule (Some "**/*.nbt") None (Some "old") None false None None)] (0, 0)
  = ([(0, "a.nbt")], Exit 1).
Proof. reflexivity. Qed.

Lemma run_rules_invalid_from glob regexp_ok make_regexp cfg_notify job pre r post :
  Forall (fun r0 => missing_required (rule_of r0) = false
                    /\ regex_fails regexp_ok (rule_of r0) = false) pre ->
  missing_required (rule_of r) = true \/ regex_fails regexp_ok (rule_of r) = true ->
  forall i totals,
  run_rules glob regexp_ok make_regexp cfg_notify job i (pre ++ r :: post) totals
  = (started_files glob i pre, Exit 1).
Proof.
  intros Hpre Hr.
  induction Hpre as [| r0 pre [Hm Hx] Hpre IH]; intros i totals.
  - simpl. destruct Hr as [Hr | Hr]; rewrite Hr; [reflexivity |].
    destruct (missing_required (rule_of r)); reflexivity.
  - simpl. rewrite Hm, Hx.
    destruct (glob (default_str (r_path (rule_of r0)) "")) as [| f fs]; [apply IH |].
    rewrite IH. reflexivity.
Qed.

(** C3 (amended): rules are validated one at a time inside the loop. When
    every rule before [r] is valid and [r] misses [path], [from] or [to], or
    its pattern does not compile, the run exits with code 1 after starting
    exactly the jobs of the earlier rules, and no file of [r] or of a later
    rule is touched. *)
Theorem invalid_rule_stops_run glob regexp_ok make_regexp cfg_notify job pre r post totals :
  Forall (fun r0 => missing_required (rule_of r0) = false
                    /\ regex_fails regexp_ok (rule_of r0) = false) pre ->
  missing_required (rule_of r) = true \/ regex_fails regexp_ok (rule_of r) = true ->
  run_rules glob regexp_ok make_regexp cfg_notify job 0 (pre ++ r :: post) totals
  = (started_files glob 0 pre, Exit 1).
Proof. intros Hpre Hr. apply run_rules_invalid_from; assumption. Qed.

Lemma invalid_rule_stops_run_witness :
  Forall (fun r0 => missing_required (rule_of r0) = false
                    /\ regex_fails (fun _ _ => true) (rule_of r0) = false)
    [Some (Rule (Some "**/*.nbt") None (Some "old") (Some "new") false None None)]
  /\ run_rules (fun _ => ["a.nbt"]) (fun _ _ => true) (fun _ _ _ v _ => (v, 0)) None
       (fun _ _ _ _ _ _ _ _ => JobDone 1 1) 0
       ([Some (Rule (Some "**/*.nbt") None (Some "old") (Some "new") false None None)]
          ++ Some (Rule (Some "**/*.nbt") None (Some "old") None false None None) :: [])
       (0, 0)
     = ([(0, "a.nbt")], Exit 1).
Proof.
  split; [repeat constructor |].
  apply (invalid_rule_stops_run (fun _ => ["a.nbt"]) (fun _ _ => true) (fun _ _ _ v _ => (v, 0)) None
           (fun _ _ _ _ _ _ _ _ => JobDone 1 1)
           [Some (Rule (Some "**/*.nbt") None (Some "old") (Some "new") false None None)]
           (Some (Rule (Some "**/*.nbt") None (Some "old") None false None None)) [] (0, 0)).
  - repeat constructor.
  - left; reflexivity.
Defined.

Section ResolveFacts.
Variable nbt_format : Type.
Variable read : bytes -> option read_opts -> option (tag * nbt_format).

Lemma retry_read_first buf pre o post g :
  (forall o' g', In o' pre -> read buf o' = Some g' -> logAllStringTags (fst g') = 0) ->
  read buf o = Some g -> 0 < logAllStringTags (fst g) ->
  retry_read nbt_format read buf (pre ++ o :: post) = Some g.
Proof.
  intros Hpre Ho Hg. induction pre as [| o' pre IH]; simpl.
  - rewrite Ho. apply Nat.ltb_lt in Hg. rewrite Hg. reflexivity.
  - destruct (read buf o') as [g' |] eqn:E.
    + rewrite (Hpre o' g' (or_introl eq_refl) E). simpl.
      apply IH. intros o'' g'' Hin. apply Hpre. right; exact Hin.
    + apply IH. intros o'' g'' Hin. apply Hpre. right; exact Hin.
Qed.

Lemma retry_read_none buf os :
  (forall o g, In o os -> read buf o = Some g -> logAllStringTags (fst g) = 0) ->
  retry_read nbt_format read buf os = None.
Proof.
  induction os as [| o os IH]; intro H; simpl; [reflexivity |].
  destruct (read buf o) as [g |] eqn:E.
  - rewrite (H o g (or_introl eq_refl) E). simpl. apply IH. intros; eapply H; [right |]; eassumption.
  - apply IH. intros; eapply H; [right |]; eassumption.
Qed.

End ResolveFacts.

(** C6 counterexample: the first accepted tree holds a String tag, but none
    under the rule's filter ["facing"]; no re-parse happens, although the
    [bedrockHeader] retry strategy yields a tree with a matching tag. *)
Lemma retry_ignores_rule_filters :
  resolve unit
    (fun _ o => match o with
                | None => Some (TCompound [("other", TString "west")], tt)
                | Some _ => Some (TCompound [("facing", TString "west")], tt)
                end) "a.nbt" []
  = Some (TCompound [("other", TString "west")], tt)
  /\ spec_events (Some "facing") "west" "north" false None 0
       (TCompound [("other", TString "west")]) [] = []
  /\ spec_events (Some "facing") "west" "north" false None 0
       (TCompound [("facing", TString "west")]) [] <> [].
Proof. split; [reflexivity | split; [reflexivity | discriminate]]. Qed.

(** C6 (amended): after the first successful decode, the re-parse runs iff
    the accepted tree holds no String tag at all (any key, any value, the
    root included: the count of [logAllStringTags] ignores the rule); the
    first retry strategy whose tree holds at least one String tag replaces
    the accepted file, and when none does the accepted file is used. *)
Theorem resolve_retry (nbt_format : Type) read filePath buf (f : tag * nbt_format) :
  first_read nbt_format read buf (attempts filePath) = Some f ->
  (0 < logAllStringTags (fst f) -> resolve nbt_format read filePath buf = Some f)
  /\ (logAllStringTags (fst f) = 0 ->
      forall pre o post g,
        retryStrategies = pre ++ o :: post ->
        (forall o' g', In o' pre -> read buf o' = Some g' -> logAllStringTags (fst g') = 0) ->
        read buf o = Some g -> 0 < logAllStringTags (fst g) ->
        resolve nbt_format read filePath buf = Some g)
  /\ (logAllStringTags (fst f) = 0 ->
      (forall o g, In o retryStrategies -> read buf o = Some g -> logAllStringTags (fst g) = 0) ->
      resolve nbt_format read filePath buf = Some f).
Proof.
  intro Hf. unfold resolve. rewrite Hf.
  split; [| split].
  - intro H. destruct (Nat.eqb_spec (logAllStringTags (fst f)) 0); [lia | reflexivity].
  - intros H0 pre o post g Hl Hpre Ho Hg. rewrite H0. cbn [Nat.eqb].
    rewrite Hl, (retry_read_first nbt_format read buf pre o post g Hpre Ho Hg). reflexivity.
  - intros H0 Hall. rewrite H0. cbn [Nat.eqb].
    rewrite (retry_read_none nbt_format read buf retryStrategies Hall). reflexivity.
Qed.

Lemma resolve_retry_witness :
  first_read unit
    (fun _ o => match o with
                | None => Some (TCompound [], tt)
                | Some _ => Some (TCompound [("Name", TString "minecraft:stone")], tt)
                end) [] (attempts "a.nbt") = Some (TCompound [], tt)
  /\ resolve unit
       (fun _ o => match o with
                   | None => Some (TCompound [], tt)
                   | Some _ => Some (TCompound [("Name", TString "minecraft:stone")], tt)
                   end) "a.nbt" []
     = Some (TCompound [("Name", TString "minecraft:stone")], tt).
Proof.
  split; [reflexivity |].
  destruct (resolve_retry unit
              (fun _ o => match o with
                          | None => Some (TCompound [], tt)
                          | Some _ => Some (TCompound [("Name", TString "minecraft:stone")], tt)
                          end) "a.nbt" [] (TCompound [], tt) eq_refl) as [_ [H _]].
  apply (H eq_refl [None] (Some opts_bedrock) [Some opts_little; Some opts_java]); try reflexivity.
  - intros o' g' [<- | []] E. injection E as <-. reflexivity.
  - simpl. lia.
Defined.

(** C8: when the file is readable and decodes (the tree [resolve] settles
    on, after any re-parse), and that tree holds no eligible String tag the
    rule replaces (with the regex in the state the replacement phase finds
    it in), the job reports [{ filesChanged: 0, stringsChanged: 0 }] (not a
    failure) and the file system is left as it was (no write-back). *)
Theorem no_match_no_write (nbt_format : Type) read write fs filePath propFilter from to
    useRegex regex notify lastIndex wr buf root fmt :
  fs filePath = Some buf ->
  resolve nbt_format read filePath buf = Some (root, fmt) ->
  spec_events propFilter from to useRegex regex
    (resolve_lastIndex nbt_format read filePath buf propFilter (match_regex useRegex regex) lastIndex)
    root [] = [] ->
  let '(res, fs', _) :=
    processFile nbt_format read write fs filePath propFilter from to useRegex regex notify lastIndex wr in
  res = JobDone 0 0 /\ fs' = fs.
Proof.
  intros Hfs R Hz. unfold processFile. rewrite Hfs, R.
  set (L := resolve_lastIndex nbt_format read filePath buf propFilter (match_regex useRegex regex) lastIndex) in *.
  pose proof (rsd_count propFilter from to useRegex regex notify root [] L) as Hc.
  unfold spec_events in Hz. rewrite Hz in Hc.
  destruct (replaceStringsDeep propFilter from to useRegex regex notify root [] L) as [[[root' n] ev] li'].
  cbn [fst snd List.length] in Hc. subst n. split; reflexivity.
Qed.

Lemma no_match_no_write_witness :
  (fun p => if String.eqb p "a.nbt" then Some (@nil Byte.byte) else None) "a.nbt"
    = Some (@nil Byte.byte)
  /\ resolve unit (fun _ _ => Some (TCompound [("facing", TString "east")], tt)) "a.nbt" []
     = Some (TCompound [("facing", TString "east")], tt)
  /\ (let '(res, fs', _) :=
        processFile unit (fun _ _ => Some (TCompound [("facing", TString "east")], tt))
          (fun _ _ => None) (fun p => if String.eqb p "a.nbt" then Some (@nil Byte.byte) else None)
          "a.nbt" (Some "facing") "west" "north" false None false 0 WriteOk in
      res = JobDone 0 0
      /\ fs' = (fun p => if String.eqb p "a.nbt" then Some (@nil Byte.byte) else None)).
Proof.
  split; [reflexivity |]. split; [reflexivity |].
  apply (no_match_no_write unit (fun _ _ => Some (TCompound [("facing", TString "east")], tt))
           (fun _ _ => None) (fun p => if String.eqb p "a.nbt" then Some (@nil Byte.byte) else None)
           "a.nbt" (Some "facing") "west" "north" false None false 0 WriteOk []
           (TCompound [("facing", TString "east")]) tt); reflexivity.
Defined.

(* ================================================================== *)
(** * Further properties of the code *)

(** ** The replacement pass *)

Section EngineMore.
Variable property : option string.
Variables from to : string.
Variable useRegex : bool.
Variable regex : option regex_t.

Local Abbreviation SC := (scan property from to useRegex regex).
Local Abbreviation DR := (decide_replace from to useRegex regex).

(** The scan emits at most one event per candidate. *)
Lemma scan_events_le : forall cs L, List.length (snd (fst (SC L cs))) <= List.length cs.
Proof.
  induction cs as [| [[segs s] v] cs IH]; intro L; [simpl; lia |].
  cbn [scan]. destruct (eligible_at property s).
  - destruct (DR L v) as [d l]. specialize (IH l).
    destruct (SC l cs) as [[cs' ev] l']. cbn [fst snd] in IH.
    destruct d; cbn [fst snd List.length]; lia.
  - specialize (IH L). destruct (SC L cs) as [[cs' ev] l']. cbn [fst snd List.length] in IH |- *. lia.
Qed.

(** The scan keeps the paths of the candidates and their number. *)
Lemma scan_length : forall cs L, List.length (fst (fst (SC L cs))) = List.length cs.
Proof.
  induction cs as [| [[segs s] v] cs IH]; intro L; [reflexivity |].
  cbn [scan]. destruct (eligible_at property s).
  - destruct (DR L v) as [d l]. specialize (IH l).
    destruct (SC l cs) as [[cs' ev] l']. cbn [fst snd] in IH.
    destruct d; cbn [fst snd List.length]; lia.
  - specialize (IH L). destruct (SC L cs) as [[cs' ev] l']. cbn [fst snd List.length] in IH |- *. lia.
Qed.

End EngineMore.

Lemma decide_regex_changes from to re L v nv l :
  decide_replace from to true (Some re) L v = (Some nv, l) -> nv <> v.
Proof.
  unfold decide_replace. destruct (re L v to) as [w l0].
  destruct (String.eqb_spec w v) as [E | E]; intro H; [discriminate |].
  injection H as <- _. exact E.
Qed.

(** With a compiled pattern an event is emitted exactly where the value
    changes. *)
Lemma scan_regex_diff property from to re : forall cs L,
  List.length (snd (fst (scan property from to true (Some re) L cs)))
  = count_diff (map (fun x => let '(_, _, v) := x in v) cs)
               (map (fun x => let '(_, _, v) := x in v) (fst (fst (scan property from to true (Some re) L cs)))).
Proof.
  induction cs as [| [[segs s] v] cs IH]; intro L; [reflexivity |].
  cbn [scan]. destruct (eligible_at property s).
  - destruct (decide_replace from to true (Some re) L v) as [d l] eqn:D. specialize (IH l).
    destruct (scan property from to true (Some re) l cs) as [[cs' ev] l']. cbn [fst snd] in IH.
    destruct d as [nv |]; cbn [fst snd List.length map count_diff].
    + apply decide_regex_changes in D.
      destruct (String.eqb_spec v nv) as [E | _]; [congruence |]. rewrite IH. reflexivity.
    + rewrite String.eqb_refl, IH. reflexivity.
  - specialize (IH L). destruct (scan property from to true (Some re) L cs) as [[cs' ev] l'].
    cbn [fst snd List.length map count_diff] in IH |- *. rewrite String.eqb_refl, IH. reflexivity.
Qed.

(** With exact matching an event is emitted for each eligible candidate
    equal to [from]. *)
Lemma scan_exact_count property from to regex : forall cs L,
  List.length (snd (fst (scan property from to false regex L cs)))
  = List.length (filter (fun x => let '(_, s, v) := x in eligible_at property s && String.eqb v from) cs).
Proof.
  induction cs as [| [[segs s] v] cs IH]; intro L; [reflexivity |].
  cbn [scan filter]. destruct (eligible_at property s); cbn [andb].
  - unfold decide_replace at 1. specialize (IH L).
    destruct (scan property from to false regex L cs) as [[cs' ev] l']. cbn [fst snd] in IH.
    destruct (String.eqb v from); cbn [fst snd List.length]; rewrite IH; reflexivity.
  - specialize (IH L). destruct (scan property from to false regex L cs) as [[cs' ev] l'].
    exact IH.
Qed.

(** The String children of a tree that is not itself a String are exactly
    the String tags [logAllStringTags] counts. *)
Lemma children_count : forall t parts,
  (forall v, t <> TString v) -> List.length (string_children t parts) = logAllStringTags t.
Proof.
  induction t as [s | es IH | xs IH |] using tag_ind'; intros parts Ht; try reflexivity.
  - exfalso; exact (Ht s eq_refl).
  - simpl string_children; simpl logAllStringTags. clear Ht.
    induction IH as [| [k c] rest Hc Hrest IHr]; [reflexivity |].
    destruct (string_or_not c) as [[v ->] | Hns].
    + simpl. f_equal. exact IHr.
    + rewrite children_loop_other by exact Hns. rewrite length_app, (Hc _ Hns), IHr. reflexivity.
  - simpl string_children; simpl logAllStringTags. clear Ht.
    enough (G : forall i, List.length (elements_loop string_children parts i xs)
                          = fold_right (fun x acc => logAllStringTags x + acc) 0 xs) by apply G.
    induction IH as [| c rest Hc Hrest IHr]; intro i; [reflexivity |].
    destruct (string_or_not c) as [[v ->] | Hns].
    + simpl. f_equal. apply IHr.
    + rewrite elements_loop_other by exact Hns. rewrite length_app, (Hc _ Hns), IHr. reflexivity.
Qed.

(** The pass changes String values only: every Compound keeps its keys in
    their order, every List its length, and every tag its kind. *)
Theorem out_keeps_shape property from to useRegex regex lastIndex t :
  shape (out property from to useRegex regex lastIndex t) = shape t.
Proof. unfold out. apply rsd_shape. Qed.

(** With a compiled pattern, the returned count is the number of String
    children whose value the pass actually changed. *)
Theorem regex_count_is_modified property from to re lastIndex t :
  changes property from to true (Some re) lastIndex t
  = count_diff (string_values t) (string_values (out property from to true (Some re) lastIndex t)).
Proof.
  unfold changes, out, string_values. rewrite rsd_count, rsd_children.
  apply scan_regex_diff.
Qed.

Lemma count_exact property from to regex lastIndex t :
  changes property from to false regex lastIndex t = count_matches property from t.
Proof. unfold changes, count_matches. rewrite rsd_count. apply scan_exact_count. Qed.

Lemma out_identity_rule property from regex lastIndex t :
  out property from from false regex lastIndex t = t.
Proof.
  unfold out. apply (rsd_kept property from from false regex t false [] lastIndex).
  apply Forall_forall. intros [[segs s] v] _ L. unfold leaf_out.
  destruct (eligible_at property s); [| reflexivity].
  unfold decide_replace. cbn [fst].
  destruct (String.eqb_spec v from) as [-> |]; reflexivity.
Qed.

(** With exact matching the returned count is the number of eligible String
    children equal to [from], whatever [to] is; when [to = from] these are
    all counted although the tree comes out unchanged. *)
Theorem exact_count_matches property from to regex lastIndex t :
  changes property from to false regex lastIndex t = count_matches property from t
  /\ out property from from false regex lastIndex t = t.
Proof. split; [apply count_exact | apply out_identity_rule]. Qed.

(** With a non-empty property filter [k], no List element and no String
    child stored under another key changes value. *)
Theorem filter_leaves_others k from to useRegex regex lastIndex t p s v :
  k <> "" ->
  lookup t (p ++ [s]) = Some (TString v) ->
  s <> SKey k ->
  lookup (out (Some k) from to useRegex regex lastIndex t) (p ++ [s]) = Some (TString v).
Proof.
  intros Hk Hl Hs. unfold out.
  destruct (lookup_leaf (Some k) from to useRegex regex p t false [] lastIndex s v Hl) as [L HL].
  rewrite HL. unfold leaf_out, eligible_at, truthy, same_key.
  apply String.eqb_neq in Hk. rewrite Hk.
  destruct s as [k' | i]; simpl; [| reflexivity].
  destruct (String.eqb_spec k k') as [-> |]; [congruence | reflexivity].
Qed.

Lemma filter_leaves_others_witness :
  "facing" <> ""
  /\ lookup (TCompound [("direction", TString "west"); ("l", TList [TString "west"])])
       ([SKey "l"] ++ [SIdx 0]) = Some (TString "west")
  /\ SIdx 0 <> SKey "facing"
  /\ lookup (out (Some "facing") "west" "north" false None 0
               (TCompound [("direction", TString "west"); ("l", TList [TString "west"])]))
       ([SKey "l"] ++ [SIdx 0]) = Some (TString "west").
Proof.
  split; [discriminate | split; [reflexivity | split; [discriminate |]]].
  apply (filter_leaves_others "facing" "west" "north" false None 0
           (TCompound [("direction", TString "west"); ("l", TList [TString "west"])])
           [SKey "l"] (SIdx 0) "west"); [discriminate | reflexivity | discriminate].
Defined.

(** The count of a pass never exceeds the number of String tags
    [logAllStringTags] reports; a tree for which it reports none comes out
    unchanged with no change counted. *)
Theorem count_within_logged property from to useRegex regex lastIndex t :
  changes property from to useRegex regex lastIndex t <= logAllStringTags t
  /\ (logAllStringTags t = 0 ->
      out property from to useRegex regex lastIndex t = t
      /\ changes property from to useRegex regex lastIndex t = 0).
Proof.
  assert (Hle : changes property from to useRegex regex lastIndex t <= List.length (string_children t [])).
  { unfold changes. rewrite rsd_count. apply scan_events_le. }
  assert (Hc : List.length (string_children t []) <= logAllStringTags t).
  { destruct (string_or_not t) as [[v ->] | Hns]; [simpl; lia |].
    rewrite (children_count t [] Hns). lia. }
  split; [lia |].
  intro H0.
  assert (Hnil : string_children t [] = []).
  { destruct (string_children t []); [reflexivity | simpl in Hc; lia]. }
  split; [| lia].
  unfold out. apply (rsd_kept property from to useRegex regex t false [] lastIndex).
  rewrite Hnil. constructor.
Qed.

Lemma count_within_logged_witness :
  logAllStringTags (TCompound [("n", TOther); ("l", TList [])]) = 0
  /\ out None "a" "b" false None 0 (TCompound [("n", TOther); ("l", TList [])])
     = TCompound [("n", TOther); ("l", TList [])].
Proof.
  split; [reflexivity |].
  apply (proj2 (count_within_logged None "a" "b" false None 0
                  (TCompound [("n", TOther); ("l", TList [])])) eq_refl).
Defined.

(** ** The controller's bookkeeping *)

Section ControllerMore.
Local Open Scope Q_scope.

Ltac destruct_ifs :=
  repeat match goal with |- context [if ?b then _ else _] => destruct b end.

Lemma adjust_fields st :
  recentTimes (adjustConcurrency st) = recentTimes st
  /\ maxConcurrency (adjustConcurrency st) = maxConcurrency st
  /\ completedSinceAdjust (adjustConcurrency st) = completedSinceAdjust st.
Proof. unfold adjustConcurrency. destruct_ifs; repeat split. Qed.

Lemma record_fields st d :
  recentTimes (recordCompletion st d) = push_time (recentTimes st) d
  /\ maxConcurrency (recordCompletion st d) = maxConcurrency st
  /\ completedSinceAdjust (recordCompletion st d)
     = (if (adjustmentInterval <=? S (completedSinceAdjust st))%nat then 0 else S (completedSinceAdjust st))%nat.
Proof.
  unfold recordCompletion. cbn [completedSinceAdjust].
  destruct (adjustmentInterval <=? S (completedSinceAdjust st))%nat; [| repeat split].
  match goal with |- context [adjustConcurrency ?s] =>
    destruct (adjust_fields s) as [A [B _]] end.
  cbn [recentTimes maxConcurrency completedSinceAdjust].
  rewrite A, B. repeat split.
Qed.

Lemma lastn_app_long {A} n (a b : list A) :
  (n <= List.length b)%nat -> lastn n (a ++ b) = lastn n b.
Proof.
  intro H. unfold lastn. rewrite length_app, skipn_app.
  rewrite skipn_all2 by lia.
  replace (List.length a + List.length b - n - List.length a)%nat with (List.length b - n)%nat by lia.
  reflexivity.
Qed.

Lemma lastn_lastn {A} n (l m : list A) : lastn n (lastn n l ++ m) = lastn n (l ++ m).
Proof.
  destruct (Nat.le_gt_cases (List.length l) n) as [Hl | Hl].
  - unfold lastn at 2. replace (List.length l - n)%nat with 0%nat by lia. reflexivity.
  - assert (E : l ++ m = firstn (List.length l - n) l ++ (lastn n l ++ m))
      by (unfold lastn; rewrite app_assoc, firstn_skipn; reflexivity).
    rewrite E, (lastn_app_long n (firstn (List.length l - n) l)); [reflexivity |].
    rewrite length_app. unfold lastn. rewrite length_skipn. lia.
Qed.

Lemma push_time_lastn xs d :
  (List.length xs <= 10)%nat -> push_time xs d = lastn 10 (xs ++ [d]).
Proof.
  intro H. unfold push_time, lastn, maxTimeHistory. rewrite length_app. cbn [List.length].
  destruct (Nat.ltb_spec 10 (List.length xs + 1)).
  - replace (List.length xs + 1 - 10)%nat with 1%nat by lia.
    destruct (xs ++ [d]); reflexivity.
  - replace (List.length xs + 1 - 10)%nat with 0%nat by lia. reflexivity.
Qed.

Lemma history_run st ds :
  (List.length (recentTimes st) <= 10)%nat ->
  recentTimes (run_completions st ds) = lastn 10 (recentTimes st ++ ds).
Proof.
  revert st; induction ds as [| d ds IH]; intros st H.
  - rewrite app_nil_r. unfold lastn. replace (List.length (recentTimes st) - 10)%nat with 0%nat by lia.
    reflexivity.
  - unfold run_completions. cbn [fold_left]. fold (run_completions (recordCompletion st d) ds).
    destruct (record_fields st d) as [R _].
    rewrite IH.
    + rewrite R, push_time_lastn by exact H. rewrite lastn_lastn, <- app_assoc. reflexivity.
    + rewrite R, push_time_lastn by exact H. unfold lastn. rewrite length_skipn. lia.
Qed.

Lemma counter_run st ds :
  (completedSinceAdjust st < 5)%nat ->
  completedSinceAdjust (run_completions st ds) = ((completedSinceAdjust st + List.length ds) mod 5)%nat
  /\ maxConcurrency (run_completions st ds) = maxConcurrency st.
Proof.
  revert st; induction ds as [| d ds IH]; intros st H.
  - unfold run_completions; cbn [fold_left List.length].
    rewrite Nat.add_0_r, Nat.mod_small by exact H. split; reflexivity.
  - unfold run_completions. cbn [fold_left]. fold (run_completions (recordCompletion st d) ds).
    destruct (record_fields st d) as [_ [M C]].
    assert (Hc : (completedSinceAdjust (recordCompletion st d) < 5)%nat).
    { rewrite C. unfold adjustmentInterval. destruct (Nat.leb_spec 5 (S (completedSinceAdjust st))); lia. }
    destruct (IH _ Hc) as [IH1 IH2]. rewrite IH1, IH2, M. split; [| reflexivity].
    rewrite C. unfold adjustmentInterval. cbn [List.length].
    destruct (Nat.leb_spec 5 (S (completedSinceAdjust st))).
    + replace (completedSinceAdjust st + S (List.length ds))%nat with (List.length ds + 1 * 5)%nat by lia.
      rewrite Nat.Div0.mod_add. reflexivity.
    + f_equal. lia.
Qed.




Lemma sum_const d xs : Forall (eq d) xs -> sum_times xs = (Z.of_nat (List.length xs) * d)%Z.
Proof.
  unfold sum_times.
  assert (G : forall a, Forall (eq d) xs -> fold_left Z.add xs a = (a + Z.of_nat (List.length xs) * d)%Z).
  { induction xs as [| x xs IH]; intros a H; cbn [fold_left List.length]; [lia |].
    inversion H; subst. rewrite IH by assumption. rewrite Nat2Z.inj_succ. lia. }
  intro H. rewrite G by exact H. lia.
Qed.

Lemma mean_const d xs n :
  Forall (eq d) xs -> List.length xs = n -> (0 < n)%nat ->
  inject_Z (sum_times xs) / inject_Z (Z.of_nat n) == inject_Z d.
Proof.
  intros H Hl Hn. rewrite (sum_const d xs H), Hl, inject_Z_mult.
  assert (Hz : ~ inject_Z (Z.of_nat n) == 0).
  { change 0 with (inject_Z 0). rewrite inject_Z_injective. lia. }
  field. exact Hz.
Qed.

Lemma adjust_const st d :
  Forall (eq d) (recentTimes st) -> (0 <= d)%Z -> adjustConcurrency st = st.
Proof.
  intros H Hd. unfold adjustConcurrency.
  destruct (Nat.ltb_spec (List.length (recentTimes st)) 3); [reflexivity |].
  assert (Ha : avg_time (recentTimes st) == inject_Z d)
    by (apply (mean_const d _ (List.length (recentTimes st))); auto; lia).
  assert (Hr : recent_avg (recentTimes st) == inject_Z d).
  { unfold recent_avg. apply (mean_const d _ 3).
    - rewrite <- (firstn_skipn (List.length (recentTimes st) - 3) (recentTimes st)) in H.
      apply Forall_app in H as [_ H2]. exact H2.
    - rewrite length_skipn. lia.
    - lia. }
  assert (Hq : 0 <= inject_Z d) by (change 0 with (inject_Z 0); rewrite <- Zle_Qle; exact Hd).
  destruct (Qltb_reflect (recent_avg (recentTimes st)) (avg_time (recentTimes st) * (4 # 5))); [lra |].
  destruct (Qltb_reflect (avg_time (recentTimes st) * (6 # 5)) (recent_avg (recentTimes st))); [lra |].
  reflexivity.
Qed.

End ControllerMore.

Lemma push_time_forall (P : Z -> Prop) xs d :
  Forall P xs -> P d -> Forall P (push_time xs d).
Proof.
  intros H Hd. unfold push_time.
  assert (Ha : Forall P (xs ++ [d])) by (apply Forall_app; auto).
  destruct (maxTimeHistory <? _)%nat; [| exact Ha].
  destruct (xs ++ [d]); [constructor | inversion Ha; assumption].
Qed.

Lemma record_const st d :
  Forall (eq d) (recentTimes st) -> (0 <= d)%Z ->
  Forall (eq d) (recentTimes (recordCompletion st d))
  /\ currentConcurrency (recordCompletion st d) = currentConcurrency st.
Proof.
  intros H Hd. split.
  - rewrite (proj1 (record_fields st d)). apply push_time_forall; auto.
  - unfold recordCompletion. destruct (adjustmentInterval <=? _)%nat; [| reflexivity].
    cbn [currentConcurrency].
    match goal with |- context [adjustConcurrency ?s] => rewrite (adjust_const s d) end;
      [reflexivity | cbn [recentTimes]; apply push_time_forall; auto | exact Hd].
Qed.

(** After any sequence of completions, [recentTimes] holds the last ten
    durations recorded (all of them while fewer than ten), oldest first. *)
Theorem history_is_last_ten C ds :
  recentTimes (run_completions (new_controller C) ds) = lastn 10 ds.
Proof. apply (history_run (new_controller C) ds). simpl. lia. Qed.

(** The adjustment runs at every fifth completion: after [n] completions
    the counter [completedSinceAdjust] is [n mod 5]; [maxConcurrency] stays
    [max(1, C)] throughout. *)
Theorem adjusts_every_fifth C ds :
  completedSinceAdjust (run_completions (new_controller C) ds) = (List.length ds mod 5)%nat
  /\ maxConcurrency (run_completions (new_controller C) ds) = Qmax 1 C.
Proof. apply (counter_run (new_controller C) ds). simpl. lia. Qed.


(** When every task takes the same non-negative time [d], the recent mean
    equals the overall mean and [currentConcurrency] never moves. *)
Theorem steady_durations_keep_level st d n :
  Forall (eq d) (recentTimes st) -> (0 <= d)%Z ->
  currentConcurrency (run_completions st (repeat d n)) = currentConcurrency st.
Proof.
  revert st; induction n as [| n IH]; intros st H Hd; [reflexivity |].
  unfold run_completions. cbn [repeat fold_left].
  fold (run_completions (recordCompletion st d) (repeat d n)).
  destruct (record_const st d H Hd) as [H1 H2].
  rewrite (IH _ H1 Hd). exact H2.
Qed.

Lemma steady_durations_keep_level_witness :
  Forall (eq 40%Z) (recentTimes (new_controller 8)) /\ (0 <= 40)%Z
  /\ currentConcurrency (run_completions (new_controller 8) (repeat 40%Z 12))
     = currentConcurrency (new_controller 8).
Proof.
  split; [constructor | split; [lia |]].
  apply steady_durations_keep_level; [constructor | lia].
Defined.

(** ** The task queue *)

Section SchedulerFacts.
Variable task : Type.
Local Open Scope Q_scope.

Lemma inject_succ a : inject_Z (Z.of_nat (S a)) == inject_Z (Z.of_nat a) + 1.
Proof. rewrite Nat2Z.inj_succ, <- Z.add_1_r, inject_Z_plus. reflexivity. Qed.

Lemma process_queue_spec cur a q a' q' s :
  process_queue task cur a q = (a', q', s) ->
  s ++ q' = q /\ a' = (a + List.length s)%nat
  /\ (q' = [] \/ cur <= inject_Z (Z.of_nat a'))
  /\ (s = [] \/ inject_Z (Z.of_nat a') < cur + 1).
Proof.
  revert a a' q' s; induction q as [| x rest IH]; intros a a' q' s E; simpl in E.
  - injection E as <- <- <-. simpl. repeat split; [lia | left; reflexivity | left; reflexivity].
  - destruct (Qltb_reflect (inject_Z (Z.of_nat a)) cur) as [Hlt | Hge].
    + destruct (process_queue task cur (S a) rest) as [[a2 q2] s2] eqn:E2.
      injection E as <- <- <-.
      destruct (IH _ _ _ _ E2) as [H1 [H2 [H3 H4]]].
      split; [simpl; rewrite H1; reflexivity |].
      split; [simpl; lia |].
      split; [exact H3 |].
      right. destruct H4 as [-> | H4]; [| exact H4].
      simpl in H2. rewrite H2, Nat.add_0_r, inject_succ. lra.
    + injection E as <- <- <-. simpl.
      split; [reflexivity | split; [lia | split; [right; apply Qnot_lt_le; exact Hge | left; reflexivity]]].
Qed.

Definition sched_inv (st : sched task) : Prop :=
  conc_ok (s_ctl st)
  /\ inject_Z (Z.of_nat (s_active st)) < maxConcurrency (s_ctl st) + 1
  /\ (s_queue st <> [] -> 1 <= s_active st)%nat
  /\ s_started st ++ s_queue st = s_submitted st.

Lemma processQueue_inv st :
  conc_ok (s_ctl st) ->
  inject_Z (Z.of_nat (s_active st)) < maxConcurrency (s_ctl st) + 1 ->
  s_started st ++ s_queue st = s_submitted st ->
  sched_inv (processQueue task st).
Proof.
  intros Hc Hb Hf. unfold processQueue.
  destruct (process_queue task (currentConcurrency (s_ctl st)) (s_active st) (s_queue st))
    as [[a' q'] s] eqn:E.
  destruct (process_queue_spec _ _ _ _ _ _ E) as [H1 [H2 [H3 H4]]].
  destruct Hc as [Hc1 Hc2].
  unfold sched_inv; cbn [s_ctl s_active s_queue s_started s_submitted].
  split; [split; assumption |].
  split.
  - destruct H4 as [-> | H4]; [simpl in H2; rewrite H2, Nat.add_0_r; exact Hb | lra].
  - split.
    + intro Hq. destruct H3 as [-> | H3]; [contradiction |].
      assert (Hz : (1 <= Z.of_nat a')%Z) by (rewrite Zle_Qle; change (inject_Z 1) with 1; lra).
      lia.
    + rewrite <- app_assoc, H1. exact Hf.
Qed.

Lemma sched_inv_step st st' : sched_inv st -> sched_step task st st' -> sched_inv st'.
Proof.
  intros [Hc [Hb [Hn Hf]]] Hs. destruct Hs as [st x | st d Ha | st Ha].
  - apply processQueue_inv; cbn [s_ctl s_active s_queue s_started s_submitted];
      [exact Hc | exact Hb | rewrite app_assoc, Hf; reflexivity].
  - unfold sched_inv; cbn [s_ctl s_active s_queue s_started s_submitted].
    destruct (record_fields (s_ctl st) d) as [_ [M _]].
    split; [apply record_conc_ok; exact Hc |]. rewrite M. auto.
  - apply processQueue_inv; cbn [s_ctl s_active s_queue s_started s_submitted]; [exact Hc | | exact Hf].
    assert (Hle : inject_Z (Z.of_nat (pred (s_active st))) <= inject_Z (Z.of_nat (s_active st)))
      by (rewrite <- Zle_Qle; lia).
    lra.
Qed.

Lemma sched_inv_reachable C st : sched_reachable task C st -> sched_inv st.
Proof.
  induction 1 as [| st st' _ IH Hs].
  - pose proof (new_controller_conc_ok C) as Hc.
    unfold sched_inv; cbn [s_ctl s_active s_queue s_started s_submitted].
    split; [exact Hc |]. destruct Hc as [H1 H2].
    split; [change (inject_Z (Z.of_nat 0)) with 0; lra |].
    split; [intro H; contradiction | reflexivity].
  - exact (sched_inv_step st st' IH Hs).
Qed.

End SchedulerFacts.

(** [processQueue()] starts queued tasks oldest first, counting each one in
    [activeTasks]; it stops only when the queue is empty or [activeTasks]
    has reached [currentConcurrency], and when it starts anything
    [activeTasks] ends below [currentConcurrency + 1]. *)
Theorem processQueue_fifo_limit (task : Type) cur a q :
  let '(a', q', s) := process_queue task cur a q in
  s ++ q' = q /\ a' = (a + List.length s)%nat
  /\ (q' = [] \/ (cur <= inject_Z (Z.of_nat a'))%Q)
  /\ (s = [] \/ (inject_Z (Z.of_nat a') < cur + 1)%Q).
Proof.
  destruct (process_queue task cur a q) as [[a' q'] s] eqn:E.
  exact (process_queue_spec task cur a q a' q' s E).
Qed.

(** In every state the controller reaches, whatever the order in which
    tasks are submitted, record their times and finish: fewer than
    [maxConcurrency + 1] tasks run at once (at most the ceiling, rounded
    up); a task waits in the queue only while another one runs; and
    [1 <= currentConcurrency <= maxConcurrency]. *)
Theorem scheduler_limits (task : Type) C st :
  sched_reachable task C st ->
  (inject_Z (Z.of_nat (s_active st)) < maxConcurrency (s_ctl st) + 1)%Q
  /\ (s_queue st <> [] -> 1 <= s_active st)%nat
  /\ (1 <= currentConcurrency (s_ctl st) <= maxConcurrency (s_ctl st))%Q.
Proof.
  intro H. destruct (sched_inv_reachable task C st H) as [[Hc1 Hc2] [Hb [Hn _]]].
  split; [exact Hb | split; [exact Hn | split; assumption]].
Qed.

Lemma scheduler_limits_witness :
  sched_reachable nat 2 (processQueue nat (Sched (new_controller 2) 0 ([] ++ [7%nat]) [] ([] ++ [7%nat])))
  /\ (inject_Z (Z.of_nat (s_active (processQueue nat (Sched (new_controller 2) 0 ([] ++ [7%nat]) [] ([] ++ [7%nat])))))
      < maxConcurrency (s_ctl (processQueue nat (Sched (new_controller 2) 0 ([] ++ [7%nat]) [] ([] ++ [7%nat])))) + 1)%Q.
Proof.
  assert (R : sched_reachable nat 2
                (processQueue nat (Sched (new_controller 2) 0 ([] ++ [7%nat]) [] ([] ++ [7%nat]))))
    by exact (reach_step nat 2 _ _ (reach_init nat 2) (step_run nat _ 7%nat)).
  split; [exact R |].
  exact (proj1 (scheduler_limits nat 2 _ R)).
Defined.

(** Tasks start in the order they were handed to [run], none is lost or
    started twice: the tasks started so far followed by the queue are the
    tasks submitted. So when [waitAll()] returns (no task active, queue
    empty) every submitted task has been started, in submission order. *)
Theorem scheduler_fifo (task : Type) C st :
  sched_reachable task C st ->
  s_started st ++ s_queue st = s_submitted st
  /\ (s_active st = 0%nat -> s_queue st = [] -> s_started st = s_submitted st).
Proof.
  intro H. destruct (sched_inv_reachable task C st H) as [_ [_ [_ Hf]]].
  split; [exact Hf | intros _ Hq; rewrite Hq, app_nil_r in Hf; exact Hf].
Qed.

Lemma scheduler_fifo_witness :
  sched_reachable nat 1 (processQueue nat (Sched (new_controller 1) 0 ([] ++ [3%nat]) [] ([] ++ [3%nat])))
  /\ s_started (processQueue nat (Sched (new_controller 1) 0 ([] ++ [3%nat]) [] ([] ++ [3%nat])))
     ++ s_queue (processQueue nat (Sched (new_controller 1) 0 ([] ++ [3%nat]) [] ([] ++ [3%nat])))
     = [3%nat].
Proof.
  assert (R : sched_reachable nat 1
                (processQueue nat (Sched (new_controller 1) 0 ([] ++ [3%nat]) [] ([] ++ [3%nat]))))
    by exact (reach_step nat 1 _ _ (reach_init nat 1) (step_run nat _ 3%nat)).
  split; [exact R |].
  exact (proj1 (scheduler_fifo nat 1 _ R)).
Defined.

(** ** processFile *)

(** The replacement decisions do not depend on [lastIndex] for exact
    matching, nor for a regex whose result ignores it. *)
Lemma decide_indep from to useRegex regex :
  match useRegex, regex with true, Some re => stateless re | _, _ => True end ->
  forall L L' v, fst (decide_replace from to useRegex regex L v)
                 = fst (decide_replace from to useRegex regex L' v).
Proof.
  intros H L L' v. unfold decide_replace.
  destruct useRegex; [destruct regex as [re |] |]; try reflexivity.
  pose proof (H L L' v to) as E.
  destruct (re L v to) as [w l]. destruct (re L' v to) as [w' l']. cbn [fst] in E |- *.
  subst w'. reflexivity.
Qed.

Section Indep.
Variable property : option string.
Variables from to : string.
Variable useRegex : bool.
Variable regex : option regex_t.
Hypothesis DI : forall L L' v, fst (decide_replace from to useRegex regex L v)
                               = fst (decide_replace from to useRegex regex L' v).

Local Abbreviation rsd := (replaceStringsDeep property from to useRegex regex).
Local Abbreviation DR := (decide_replace from to useRegex regex).

(** When the decisions ignore [lastIndex], so do the tree, the count and
    the events of the pass. *)
Lemma rsd_indep : forall t b parts li li', fst (rsd b t parts li) = fst (rsd b t parts li').
Proof.
  induction t as [s | es IH | xs IH |] using tag_ind'; intros b parts li li'; try reflexivity.
  - cbn [replaceStringsDeep].
    enough (G : forall li li', fst (compound_loop property from to useRegex regex b (rsd b) parts es li)
                               = fst (compound_loop property from to useRegex regex b (rsd b) parts es li')).
    { specialize (G li li'). revert G.
      destruct (compound_loop property from to useRegex regex b (rsd b) parts es li) as [[[e1 n1] v1] l1].
      destruct (compound_loop property from to useRegex regex b (rsd b) parts es li') as [[[e2 n2] v2] l2].
      cbn [fst]. intro G. injection G as -> -> ->. reflexivity. }
    clear li li'. induction IH as [| [k c] rest Hc Hrest IHr]; intros li li'; [reflexivity |].
    cbn [compound_loop].
    assert (Hstep : forall li li', fst (compound_child property from to useRegex regex b (rsd b) parts k c li)
                                   = fst (compound_child property from to useRegex regex b (rsd b) parts k c li')).
    { intros l l'. destruct (string_or_not c) as [[v ->] | Hns].
      - unfold compound_child. destruct (negb (truthy property) || same_key property k); [| reflexivity].
        pose proof (DI l l' v) as D.
        destruct (DR l v) as [d l0]. destruct (DR l' v) as [d' l0']. cbn [fst] in D. subst d'.
        destruct d; reflexivity.
      - rewrite !compound_child_other by exact Hns. apply Hc. }
    specialize (Hstep li li'). revert Hstep.
    destruct (compound_child property from to useRegex regex b (rsd b) parts k c li) as [[[c1 n1] v1] l1].
    destruct (compound_child property from to useRegex regex b (rsd b) parts k c li') as [[[c2 n2] v2] l2].
    cbn [fst]. intro Hs. injection Hs as -> -> ->.
    specialize (IHr l1 l2). revert IHr.
    destruct (compound_loop property from to useRegex regex b (rsd b) parts rest l1) as [[[r1 m1] w1] k1].
    destruct (compound_loop property from to useRegex regex b (rsd b) parts rest l2) as [[[r2 m2] w2] k2].
    cbn [fst]. intro G. injection G as -> -> ->. reflexivity.
  - cbn [replaceStringsDeep].
    enough (G : forall i li li', fst (list_loop property from to useRegex regex b (rsd b) parts i xs li)
                                 = fst (list_loop property from to useRegex regex b (rsd b) parts i xs li')).
    { specialize (G 0 li li'). revert G.
      destruct (list_loop property from to useRegex regex b (rsd b) parts 0 xs li) as [[[e1 n1] v1] l1].
      destruct (list_loop property from to useRegex regex b (rsd b) parts 0 xs li') as [[[e2 n2] v2] l2].
      cbn [fst]. intro G. injection G as -> -> ->. reflexivity. }
    clear li li'. induction IH as [| c rest Hc Hrest IHr]; intros i li li'; [reflexivity |].
    cbn [list_loop].
    assert (Hstep : forall li li', fst (list_child property from to useRegex regex b (rsd b) parts i c li)
                                   = fst (list_child property from to useRegex regex b (rsd b) parts i c li')).
    { intros l l'. destruct (string_or_not c) as [[v ->] | Hns].
      - unfold list_child. destruct (negb (truthy property)); [| reflexivity].
        pose proof (DI l l' v) as D.
        destruct (DR l v) as [d l0]. destruct (DR l' v) as [d' l0']. cbn [fst] in D. subst d'.
        destruct d; reflexivity.
      - rewrite !list_child_other by exact Hns. apply Hc. }
    specialize (Hstep li li'). revert Hstep.
    destruct (list_child property from to useRegex regex b (rsd b) parts i c li) as [[[c1 n1] v1] l1].
    destruct (list_child property from to useRegex regex b (rsd b) parts i c li') as [[[c2 n2] v2] l2].
    cbn [fst]. intro Hs. injection Hs as -> -> ->.
    specialize (IHr (S i) l1 l2). revert IHr.
    destruct (list_loop property from to useRegex regex b (rsd b) parts (S i) rest l1) as [[[r1 m1] w1] k1].
    destruct (list_loop property from to useRegex regex b (rsd b) parts (S i) rest l2) as [[[r2 m2] w2] k2].
    cbn [fst]. intro G. injection G as -> -> ->. reflexivity.
Qed.

End Indep.

Lemma out_changes_indep property from to useRegex regex L L' t :
  match useRegex, regex with true, Some re => stateless re | _, _ => True end ->
  out property from to useRegex regex L t = out property from to useRegex regex L' t
  /\ changes property from to useRegex regex L t = changes property from to useRegex regex L' t.
Proof.
  intro H. unfold out, changes.
  rewrite (rsd_indep property from to useRegex regex (decide_indep from to useRegex regex H) t false [] L L').
  split; reflexivity.
Qed.

Section ProcessFileFacts.
Variable nbt_format : Type.
Variable read : bytes -> option read_opts -> option (tag * nbt_format).
Variable write : tag -> nbt_format -> option bytes.

(** A job on a file that reads and decodes: the pass runs from the
    [lastIndex] the [logAllStringTags] calls leave, and the file is encoded
    and written iff the pass counts a change. *)
Lemma processFile_resolved fs filePath propFilter from to useRegex regex notify lastIndex wr
    buf root fmt :
  fs filePath = Some buf ->
  resolve nbt_format read filePath buf = Some (root, fmt) ->
  let L := resolve_lastIndex nbt_format read filePath buf propFilter (match_regex useRegex regex) lastIndex in
  let li' := snd (replaceStringsDeep propFilter from to useRegex regex false root [] L) in
  processFile nbt_format read write fs filePath propFilter from to useRegex regex notify lastIndex wr
  = if 0 <? changes propFilter from to useRegex regex L root
    then match write (out propFilter from to useRegex regex L root) fmt with
         | None => (JobFailed, fs, li')
         | Some b =>
             match wr with
             | WriteOk => (JobDone 1 (changes propFilter from to useRegex regex L root),
                           fs_write fs filePath b, li')
             | WriteFailed None => (JobFailed, fs, li')
             | WriteFailed (Some b') => (JobFailed, fs_write fs filePath b', li')
             end
         end
    else (JobDone 0 0, fs, li').
Proof.
  intros Hfs R. cbv zeta. unfold processFile. rewrite Hfs, R. cbv zeta.
  set (L := resolve_lastIndex nbt_format read filePath buf propFilter (match_regex useRegex regex) lastIndex).
  pose proof (rsd_onReplace propFilter from to useRegex regex root notify [] L) as H.
  unfold changes, out.
  destruct (replaceStringsDeep propFilter from to useRegex regex notify root [] L) as [[[t1 n1] e1] l1].
  destruct (replaceStringsDeep propFilter from to useRegex regex false root [] L) as [[[t2 n2] e2] l2].
  destruct H as (-> & -> & ->). reflexivity.
Qed.

Lemma first_read_none buf os :
  first_read nbt_format read buf os = None <-> forall o, In o os -> read buf o = None.
Proof.
  induction os as [| o os IH]; simpl.
  - split; [intros _ o [] | reflexivity].
  - destruct (read buf o) as [f |] eqn:E.
    + split; [discriminate | intro H; rewrite (H o (or_introl eq_refl)) in E; discriminate].
    + rewrite IH. split.
      * intros H o' [<- | Hin]; [exact E | exact (H o' Hin)].
      * intros H o' Hin. apply H. right; exact Hin.
Qed.

Lemma resolve_none filePath buf :
  resolve nbt_format read filePath buf = None
  <-> first_read nbt_format read buf (attempts filePath) = None.
Proof.
  unfold resolve. destruct (first_read nbt_format read buf (attempts filePath)); [| tauto].
  split; [| discriminate].
  destruct (_ =? 0); [destruct (retry_read _ _ _ _) |]; discriminate.
Qed.

End ProcessFileFacts.

Lemma fs_write_at fs p b : fs_write fs p b p = Some b.
Proof. unfold fs_write. rewrite String.eqb_refl. reflexivity. Qed.

Lemma fs_write_other fs p b q : q <> p -> fs_write fs p b q = fs q.
Proof. intro H. unfold fs_write. apply String.eqb_neq in H. rewrite H. reflexivity. Qed.

(** A job ends in one of three ways. It fails, leaving the file system as
    it was, or, when [fs.writeFile] rejects after altering the file,
    leaving that file with the bytes the failed write left. It reports
    [{ filesChanged: 0, stringsChanged: 0 }] and writes nothing. Or the
    encoding and the write succeed and it reports
    [{ filesChanged: 1, stringsChanged: n }], with [n > 0] the count of the
    pass over the decoded tree (from the regex state the logging calls
    leave), after rewriting exactly the processed file with the encoding
    of the replaced tree in the decoded format. *)
Theorem processFile_outcomes (nbt_format : Type) read write fs filePath propFilter from to
    useRegex regex notify lastIndex wr :
  let '(res, fs', _) :=
    processFile nbt_format read write fs filePath propFilter from to useRegex regex notify lastIndex wr in
  (res = JobFailed
   /\ (fs' = fs \/ exists b, wr = WriteFailed (Some b) /\ fs' = fs_write fs filePath b))
  \/ (res = JobDone 0 0 /\ fs' = fs)
  \/ (exists buf root fmt b,
        let L := resolve_lastIndex nbt_format read filePath buf propFilter (match_regex useRegex regex) lastIndex in
        fs filePath = Some buf
        /\ resolve nbt_format read filePath buf = Some (root, fmt)
        /\ 0 < changes propFilter from to useRegex regex L root
        /\ res = JobDone 1 (changes propFilter from to useRegex regex L root)
        /\ write (out propFilter from to useRegex regex L root) fmt = Some b
        /\ wr = WriteOk
        /\ fs' filePath = Some b
        /\ forall q, q <> filePath -> fs' q = fs q).
Proof.
  destruct (fs filePath) as [buf |] eqn:Hfs.
  2:{ unfold processFile. rewrite Hfs. left; split; [reflexivity | left; reflexivity]. }
  destruct (resolve nbt_format read filePath buf) as [[root fmt] |] eqn:R.
  2:{ unfold processFile. rewrite Hfs, R. left; split; [reflexivity | left; reflexivity]. }
  rewrite (processFile_resolved nbt_format read write fs filePath propFilter from to useRegex regex
             notify lastIndex wr buf root fmt Hfs R).
  cbv zeta.
  set (L := resolve_lastIndex nbt_format read filePath buf propFilter (match_regex useRegex regex) lastIndex).
  destruct (Nat.ltb_spec 0 (changes propFilter from to useRegex regex L root)) as [Hn | Hn].
  - destruct (write (out propFilter from to useRegex regex L root) fmt) as [b |] eqn:W.
    + destruct wr as [| [b' |]].
      * right; right. exists buf, root, fmt, b. cbv zeta.
        repeat split; try assumption.
        -- apply fs_write_at.
        -- intros q Hq. apply fs_write_other; exact Hq.
      * left. split; [reflexivity | right; exists b'; split; reflexivity].
      * left. split; [reflexivity | left; reflexivity].
    + left. split; [reflexivity | left; reflexivity].
  - right; left. split; reflexivity.
Qed.

(** A job fails exactly when the file cannot be read, or no entry of the
    [attempts] list decodes it, or the pass counts a change and then the
    encoding throws or [fs.writeFile] rejects. *)
Theorem processFile_fails_iff (nbt_format : Type) read write fs filePath propFilter from to
    useRegex regex notify lastIndex wr :
  fst (fst (processFile nbt_format read write fs filePath propFilter from to useRegex regex notify
              lastIndex wr)) = JobFailed
  <-> fs filePath = None
      \/ (exists buf, fs filePath = Some buf /\ forall o, In o (attempts filePath) -> read buf o = None)
      \/ (exists buf root fmt,
            let L := resolve_lastIndex nbt_format read filePath buf propFilter (match_regex useRegex regex) lastIndex in
            fs filePath = Some buf
            /\ resolve nbt_format read filePath buf = Some (root, fmt)
            /\ 0 < changes propFilter from to useRegex regex L root
            /\ (write (out propFilter from to useRegex regex L root) fmt = None \/ wr <> WriteOk)).
Proof.
  destruct (fs filePath) as [buf |] eqn:Hfs.
  2:{ unfold processFile. rewrite Hfs. cbn [fst]. split; [intros _; left; reflexivity | reflexivity]. }
  destruct (resolve nbt_format read filePath buf) as [[root fmt] |] eqn:R.
  - rewrite (processFile_resolved nbt_format read write fs filePath propFilter from to useRegex regex
               notify lastIndex wr buf root fmt Hfs R).
    cbv zeta.
    set (L := resolve_lastIndex nbt_format read filePath buf propFilter (match_regex useRegex regex) lastIndex).
    split.
    + destruct (Nat.ltb_spec 0 (changes propFilter from to useRegex regex L root)) as [Hn | Hn];
        [| discriminate].
      destruct (write (out propFilter from to useRegex regex L root) fmt) as [b |] eqn:W.
      * destruct wr as [| wl]; [discriminate |]. intros _.
        right; right. exists buf, root, fmt. cbv zeta.
        repeat split; try assumption. right; discriminate.
      * intros _. right; right. exists buf, root, fmt. cbv zeta.
        repeat split; try assumption. left; exact W.
    + intros [H | [[b [Hb Hall]] | [b [r [f (Hb & Rr & Hn & Hw)]]]]]; [discriminate | |].
      * injection Hb as <-.
        apply (first_read_none nbt_format read buf (attempts filePath)) in Hall.
        apply (resolve_none nbt_format read filePath buf) in Hall. congruence.
      * injection Hb as <-. rewrite R in Rr. injection Rr as <- <-.
        fold L in Hn, Hw. apply Nat.ltb_lt in Hn. rewrite Hn.
        destruct Hw as [W | Hw]; [rewrite W; reflexivity |].
        destruct (write (out propFilter from to useRegex regex L root) fmt); [| reflexivity].
        destruct wr as [| [b' |]]; [contradiction | reflexivity | reflexivity].
  - unfold processFile. rewrite Hfs, R. cbn [fst]. split; [intros _ | reflexivity].
    right; left. exists buf. split; [reflexivity |].
    apply (first_read_none nbt_format read buf (attempts filePath)).
    apply (resolve_none nbt_format read filePath buf). exact R.
Qed.

(** Running a rule a second time over the file a first run wrote changes
    nothing more and writes nothing, whatever the second write would do and
    whatever state the regex is in, for exact matching with [to <> from]
    and for a regex that ignores [lastIndex] (not a sticky regex without
    [g]) whose substitution is stable; this supposes the first run's write
    succeeds and decoding the written bytes gives back the written tree. *)
Theorem rerun_changes_nothing (nbt_format : Type) read write fs filePath propFilter from to
    useRegex regex notify lastIndex lastIndex2 wr2 buf root fmt b :
  fs filePath = Some buf ->
  resolve nbt_format read filePath buf = Some (root, fmt) ->
  match useRegex, regex with
  | true, Some re => stateless re /\ forall L v, fst (re L (fst (re L v to)) to) = fst (re L v to)
  | _, _ => to <> from
  end ->
  write (out propFilter from to useRegex regex 0 root) fmt = Some b ->
  resolve nbt_format read filePath b = Some (out propFilter from to useRegex regex 0 root, fmt) ->
  let '(_, fs1, _) :=
    processFile nbt_format read write fs filePath propFilter from to useRegex regex notify lastIndex WriteOk in
  let '(res2, fs2, _) :=
    processFile nbt_format read write fs1 filePath propFilter from to useRegex regex notify lastIndex2 wr2 in
  res2 = JobDone 0 0 /\ fs2 = fs1.
Proof.
  intros Hfs R Hyp W R2.
  assert (St : match useRegex, regex with true, Some re => stateless re | _, _ => True end)
    by (destruct useRegex; [destruct regex |]; tauto).
  rewrite (processFile_resolved nbt_format read write fs filePath propFilter from to useRegex regex
             notify lastIndex WriteOk buf root fmt Hfs R).
  cbv zeta.
  set (L := resolve_lastIndex nbt_format read filePath buf propFilter (match_regex useRegex regex) lastIndex).
  destruct (out_changes_indep propFilter from to useRegex regex L 0 root St) as [Eo Ec].
  rewrite Eo.
  destruct (0 <? changes propFilter from to useRegex regex L root) eqn:Hn.
  - rewrite W.
    rewrite (processFile_resolved nbt_format read write _ filePath propFilter from to useRegex regex
               notify lastIndex2 wr2 _ _ fmt (fs_write_at fs filePath b) R2).
    cbv zeta.
    rewrite (second_pass_zero propFilter from to useRegex regex 0 _ root Hyp).
    split; reflexivity.
  - rewrite (processFile_resolved nbt_format read write fs filePath propFilter from to useRegex regex
               notify lastIndex2 wr2 buf root fmt Hfs R).
    cbv zeta.
    destruct (out_changes_indep propFilter from to useRegex regex L
                (resolve_lastIndex nbt_format read filePath buf propFilter (match_regex useRegex regex)
                   lastIndex2) root St) as [_ Ec2].
    rewrite <- Ec2, Hn. split; reflexivity.
Qed.

Lemma rerun_changes_nothing_witness :
  (fun p => if String.eqb p "a.nbt" then Some (@nil Byte.byte) else None) "a.nbt" = Some (@nil Byte.byte)
  /\ resolve unit (fun b _ => match b with
                              | [] => Some (TCompound [("k", TString "west")], tt)
                              | _ => Some (TCompound [("k", TString "north")], tt)
                              end) "a.nbt" [] = Some (TCompound [("k", TString "west")], tt)
  /\ (let '(_, fs1, _) :=
        processFile unit
          (fun b _ => match b with
                      | [] => Some (TCompound [("k", TString "west")], tt)
                      | _ => Some (TCompound [("k", TString "north")], tt)
                      end) (fun _ _ => Some [Byte.x00])
          (fun p => if String.eqb p "a.nbt" then Some (@nil Byte.byte) else None)
          "a.nbt" None "west" "north" false None false 0 WriteOk in
      let '(res2, fs2, _) :=
        processFile unit
          (fun b _ => match b with
                      | [] => Some (TCompound [("k", TString "west")], tt)
                      | _ => Some (TCompound [("k", TString "north")], tt)
                      end) (fun _ _ => Some [Byte.x00]) fs1 "a.nbt" None "west" "north" false None false
          7 (WriteFailed None) in
      res2 = JobDone 0 0 /\ fs2 = fs1).
Proof.
  split; [reflexivity | split; [reflexivity |]].
  apply (rerun_changes_nothing unit
           (fun b _ => match b with
                       | [] => Some (TCompound [("k", TString "west")], tt)
                       | _ => Some (TCompound [("k", TString "north")], tt)
                       end) (fun _ _ => Some [Byte.x00])
           (fun p => if String.eqb p "a.nbt" then Some (@nil Byte.byte) else None)
           "a.nbt" None "west" "north" false None false 0 7 (WriteFailed None) []
           (TCompound [("k", TString "west")]) tt [Byte.x00]);
    [reflexivity | reflexivity | discriminate | reflexivity | reflexivity].
Defined.

(** An exact rule whose [to] equals its [from] leaves every value as it is,
    yet each eligible String child equal to [from] counts as a change: when
    the encoding and the write succeed, the job reports them and writes the
    file back, re-encoding the decoded tree unchanged. *)
Theorem identity_rule_rewrites (nbt_format : Type) read write fs filePath propFilter from regex
    notify lastIndex buf root fmt b :
  fs filePath = Some buf ->
  resolve nbt_format read filePath buf = Some (root, fmt) ->
  0 < count_matches propFilter from root ->
  write root fmt = Some b ->
  let '(res, fs', _) :=
    processFile nbt_format read write fs filePath propFilter from from false regex notify lastIndex WriteOk in
  res = JobDone 1 (count_matches propFilter from root) /\ fs' = fs_write fs filePath b.
Proof.
  intros Hfs R Hn W.
  rewrite (processFile_resolved nbt_format read write fs filePath propFilter from from false regex
             notify lastIndex WriteOk buf root fmt Hfs R).
  cbv zeta. rewrite count_exact, out_identity_rule, W.
  apply Nat.ltb_lt in Hn. rewrite Hn. split; reflexivity.
Qed.

Lemma identity_rule_rewrites_witness :
  (fun p => if String.eqb p "a.nbt" then Some (@nil Byte.byte) else None) "a.nbt" = Some (@nil Byte.byte)
  /\ resolve unit (fun _ _ => Some (TCompound [("Name", TString "stone")], tt)) "a.nbt" []
     = Some (TCompound [("Name", TString "stone")], tt)
  /\ 0 < count_matches None "stone" (TCompound [("Name", TString "stone")])
  /\ (let '(res, fs', _) :=
        processFile unit (fun _ _ => Some (TCompound [("Name", TString "stone")], tt))
          (fun _ _ => Some (@nil Byte.byte))
          (fun p => if String.eqb p "a.nbt" then Some (@nil Byte.byte) else None)
          "a.nbt" None "stone" "stone" false None false 0 WriteOk in
      res = JobDone 1 (count_matches None "stone" (TCompound [("Name", TString "stone")]))
      /\ fs' = fs_write (fun p => if String.eqb p "a.nbt" then Some (@nil Byte.byte) else None)
                 "a.nbt" (@nil Byte.byte)).
Proof.
  split; [reflexivity | split; [reflexivity | split; [apply Nat.ltb_lt; vm_compute; reflexivity |]]].
  apply (identity_rule_rewrites unit (fun _ _ => Some (TCompound [("Name", TString "stone")], tt))
           (fun _ _ => Some (@nil Byte.byte))
           (fun p => if String.eqb p "a.nbt" then Some (@nil Byte.byte) else None)
           "a.nbt" None "stone" None false 0 [] (TCompound [("Name", TString "stone")]) tt (@nil Byte.byte));
    [reflexivity | reflexivity | apply Nat.ltb_lt; vm_compute; reflexivity | reflexivity].
Defined.

(** ** main *)

(** [from.replace(/\u0008/g, "\\b")] leaves no backspace character in the
    pattern, and leaves a pattern without one as it is (so normalising twice
    is normalising once). *)
Theorem norm_pattern_clean s :
  has_backspace (norm_pattern s) = false
  /\ (has_backspace s = false -> norm_pattern s = s)
  /\ norm_pattern (norm_pattern s) = norm_pattern s.
Proof.
  assert (A : forall s, has_backspace (norm_pattern s) = false).
  { induction s0 as [| c rest IH]; [reflexivity |]. simpl.
    destruct (Ascii.eqb c (ascii_of_nat 8)) eqn:E; simpl; [exact IH | rewrite E; exact IH]. }
  assert (B : forall s, has_backspace s = false -> norm_pattern s = s).
  { induction s0 as [| c rest IH]; [reflexivity |]. simpl. intro H.
    apply orb_false_elim in H as [H1 H2]. rewrite H1, (IH H2). reflexivity. }
  split; [apply A | split; [apply B | apply B, A]].
Qed.

Lemma norm_pattern_clean_witness :
  has_backspace "minecraft:.*_slab" = false
  /\ norm_pattern "minecraft:.*_slab" = "minecraft:.*_slab".
Proof.
  split; [reflexivity |].
  apply (proj1 (proj2 (norm_pattern_clean "minecraft:.*_slab"))). reflexivity.
Defined.

Lemma fold_add_result rs acc :
  fold_left add_result rs acc
  = (fst acc + list_sum (map files_of rs), snd acc + list_sum (map strings_of rs)).
Proof.
  revert acc; induction rs as [| r rs IH]; intros [a b]; simpl.
  - rewrite !Nat.add_0_r. reflexivity.
  - rewrite IH. destruct r as [| f n]; simpl; f_equal; lia.
Qed.

Section MainFacts.
Variable glob : string -> list string.
Variable regexp_ok : string -> string -> bool.
Variable make_regexp : string -> string -> regex_t.
Variable cfg_notify : option bool.
Variable job : nat -> string -> option string -> string -> string -> bool
               -> option regex_t -> bool -> job_result.

Definition rule_valid (r0 : option rule) : Prop :=
  missing_required (rule_of r0) = false /\ regex_fails regexp_ok (rule_of r0) = false.

Lemma run_rules_valid i rules totals :
  Forall rule_valid rules ->
  run_rules glob regexp_ok make_regexp cfg_notify job i rules totals
  = (started_files glob i rules,
     Done (fst totals + list_sum (map files_of (rule_results glob make_regexp cfg_notify job i rules)))
          (snd totals + list_sum (map strings_of (rule_results glob make_regexp cfg_notify job i rules)))).
Proof.
  revert i totals; induction rules as [| r0 rest IH]; intros i totals Hv.
  - simpl. rewrite !Nat.add_0_r. reflexivity.
  - inversion Hv as [| ? ? [Hm Hr] Hrest]; subst.
    cbn [run_rules rule_results started_files]. rewrite Hm, Hr.
    destruct (glob (default_str (r_path (rule_of r0)) "")) as [| f fs] eqn:G.
    + rewrite (IH (S i) totals Hrest). reflexivity.
    + rewrite (IH (S i) _ Hrest), fold_add_result.
      rewrite !map_app, !list_sum_app. destruct totals as [a b]. simpl. f_equal. f_equal; lia.
Qed.

Lemma results_bounded i rules :
  (forall rIndex f pf fr t u rg n, files_of (job rIndex f pf fr t u rg n) <= 1) ->
  Forall (fun r => files_of r <= 1) (rule_results glob make_regexp cfg_notify job i rules).
Proof.
  intro Hj. revert i; induction rules as [| r0 rest IH]; intro i; [constructor |].
  cbn [rule_results]. apply Forall_app. split; [| apply IH].
  apply Forall_forall. intros x Hx. apply in_map_iff in Hx as [f [<- _]]. apply Hj.
Qed.

Lemma length_started_results i rules :
  List.length (started_files glob i rules)
  = List.length (rule_results glob make_regexp cfg_notify job i rules).
Proof.
  revert i; induction rules as [| r0 rest IH]; intro i; [reflexivity |].
  cbn [started_files rule_results]. rewrite !length_app, !length_map, IH. reflexivity.
Qed.

End MainFacts.

Lemma sum_files_le l : Forall (fun r => files_of r <= 1) l -> list_sum (map files_of l) <= List.length l.
Proof. induction 1; simpl; lia. Qed.

(** When every rule is accepted, the run starts one job per matched file,
    rule after rule, and ends with [Done.] reporting the sums of
    [filesChanged] and [stringsChanged] over the jobs that were fulfilled; a
    rejected job adds nothing and does not stop the run, and a rule matching
    no file adds nothing. *)
Theorem run_totals glob regexp_ok make_regexp cfg_notify job rules :
  Forall (rule_valid regexp_ok) rules ->
  run_rules glob regexp_ok make_regexp cfg_notify job 0 rules (0, 0)
  = (started_files glob 0 rules,
     Done (list_sum (map files_of (rule_results glob make_regexp cfg_notify job 0 rules)))
          (list_sum (map strings_of (rule_results glob make_regexp cfg_notify job 0 rules)))).
Proof. intro H. apply (run_rules_valid glob regexp_ok make_regexp cfg_notify job 0 rules (0, 0) H). Qed.

(** The reported number of files changed never exceeds the number of jobs
    started, since a job changes at most one file. *)
Theorem files_changed_le_started glob regexp_ok make_regexp cfg_notify job rules :
  Forall (rule_valid regexp_ok) rules ->
  (forall rIndex f pf fr t u rg n, files_of (job rIndex f pf fr t u rg n) <= 1) ->
  match run_rules glob regexp_ok make_regexp cfg_notify job 0 rules (0, 0) with
  | (started, Done filesChanged _) => filesChanged <= List.length started
  | (_, Exit _) => False
  end.
Proof.
  intros H Hj. rewrite (run_rules_valid glob regexp_ok make_regexp cfg_notify job 0 rules (0, 0) H).
  rewrite (length_started_results glob make_regexp cfg_notify job 0 rules).
  apply sum_files_le, results_bounded, Hj.
Qed.

Lemma run_totals_witness :
  Forall (rule_valid (fun _ _ => true))
    [Some (Rule (Some "*.nbt") None (Some "w") (Some "n") false None None)]
  /\ run_rules (fun p => if String.eqb p "*.nbt" then ["a.nbt"; "b.nbt"] else [])
       (fun _ _ => true) (fun _ _ _ s _ => (s, 0)) None
       (fun _ f _ _ _ _ _ _ => if String.eqb f "a.nbt" then JobDone 1 2 else JobFailed) 0
       [Some (Rule (Some "*.nbt") None (Some "w") (Some "n") false None None)] (0, 0)
     = ([(0, "a.nbt"); (0, "b.nbt")], Done 1 2).
Proof.
  assert (H : Forall (rule_valid (fun _ _ => true))
                [Some (Rule (Some "*.nbt") None (Some "w") (Some "n") false None None)])
    by (constructor; [split; reflexivity | constructor]).
  split; [exact H |].
  rewrite (run_totals (fun p => if String.eqb p "*.nbt" then ["a.nbt"; "b.nbt"] else [])
             (fun _ _ => true) (fun _ _ _ s _ => (s, 0)) None
             (fun _ f _ _ _ _ _ _ => if String.eqb f "a.nbt" then JobDone 1 2 else JobFailed) _ H).
  reflexivity.
Defined.

Lemma files_changed_le_started_witness :
  Forall (rule_valid (fun _ _ => true))
    [Some (Rule (Some "*.nbt") None (Some "w") (Some "n") false None None)]
  /\ match run_rules (fun p => if String.eqb p "*.nbt" then ["a.nbt"; "b.nbt"] else [])
             (fun _ _ => true) (fun _ _ _ s _ => (s, 0)) None
             (fun _ f _ _ _ _ _ _ => if String.eqb f "a.nbt" then JobDone 1 2 else JobDone 0 0) 0
             [Some (Rule (Some "*.nbt") None (Some "w") (Some "n") false None None)] (0, 0) with
     | (started, Done filesChanged _) => filesChanged <= List.length started
     | (_, Exit _) => False
     end.
Proof.
  assert (H : Forall (rule_valid (fun _ _ => true))
                [Some (Rule (Some "*.nbt") None (Some "w") (Some "n") false None None)])
    by (constructor; [split; reflexivity | constructor]).
  split; [exact H |].
  apply (files_changed_le_started (fun p => if String.eqb p "*.nbt" then ["a.nbt"; "b.nbt"] else [])
           (fun _ _ => true) (fun _ _ _ s _ => (s, 0)) None
           (fun _ f _ _ _ _ _ _ => if String.eqb f "a.nbt" then JobDone 1 2 else JobDone 0 0) _ H).
  intros rIndex f pf fr t u rg n. simpl. destruct (String.eqb f "a.nbt"); simpl; lia.
Defined.

